(** * Rctrl::EventEmitter -- a model of [include/EventEmitter.h]

    The header defines one class template, [EventEmitter<EventType, Event>]:
    a [std::multimap] from event types to listeners, an [unsigned int]
    counter that names the listeners, and a mutex.  This file embeds the
    three member functions ([addListener], [removeListener], [emit]) and the
    part of [std::multimap] they rely on, and proves what holds of them. *)

From Stdlib Require Import ZArith List Bool Arith Lia Sorted Permutation.
Import ListNotations.
Local Open Scope Z_scope.

Set Implicit Arguments.
Set Maximal Implicit Insertion.

(** ** Machine integers

    [ListenerID] is [unsigned int]; [Listener::id] and the local
    [listenerID] of [addListener] are [int].  Both are 32 bits wide on the
    platforms the server is built for.  Arithmetic on [unsigned int] is
    modulo [2^32]; a conversion between the two keeps the bit pattern. *)

Definition UINT_MAX : Z := 4294967295.
Definition INT_MAX : Z := 2147483647.

(** Conversion to [unsigned int]. *)
Definition to_unsigned (z : Z) : Z := z mod (UINT_MAX + 1).

(** Conversion to [int] (two's complement). *)
Definition to_int (z : Z) : Z :=
  let u := to_unsigned z in
  if u <=? INT_MAX then u else u - (UINT_MAX + 1).

(** ** The key order

    "EventType ... must be comparable with <": the comparison object of the
    multimap is [std::less<EventType>], which has to be a strict weak
    ordering.  Two keys are equivalent when neither is less than the other. *)

Class Comparable (K : Type) : Type := {
  less : K -> K -> bool;
  less_irreflexive : forall a, less a a = false;
  less_transitive :
    forall a b c, less a b = true -> less b c = true -> less a c = true;
  equivalence_transitive :
    forall a b c,
      less a b = false -> less b a = false ->
      less b c = false -> less c b = false ->
      less a c = false /\ less c a = false
}.

Definition equivalent {K} `{Comparable K} (a b : K) : bool :=
  negb (less a b) && negb (less b a).

#[export] Instance nat_Comparable : Comparable nat.
Proof.
  refine {| less := Nat.ltb; less_irreflexive := Nat.ltb_irrefl |}.
  - intros a b c. rewrite !Nat.ltb_lt. apply Nat.lt_trans.
  - intros a b c. rewrite !Nat.ltb_ge. intros Hba Hab Hcb Hbc.
    assert (a = b) by (apply Nat.le_antisymm; assumption).
    assert (b = c) by (apply Nat.le_antisymm; assumption).
    subst. split; apply Nat.le_refl.
Defined.

(** ** std::multimap

    The container is modelled by the sequence an in-order traversal visits:
    a list of (key, value) pairs, keys never decreasing.  [emplace] puts the
    new element at the upper bound of its key (C++11: "inserted at the end of
    the range of equivalent elements"); [equal_range] is the stretch from
    [lower_bound] up to [upper_bound]. *)

Section Multimap.
Context {K V : Type} `{Comparable K}.

Definition multimap : Type := list (K * V).

Fixpoint emplace (k : K) (v : V) (m : multimap) : multimap :=
  match m with
  | [] => [(k, v)]
  | (k', v') :: rest =>
      if less k k' then (k, v) :: m else (k', v') :: emplace k v rest
  end.

(** The elements from the first one whose key is not less than [k]. *)
Fixpoint lower_bound (k : K) (m : multimap) : multimap :=
  match m with
  | [] => []
  | (k', v') :: rest => if less k' k then lower_bound k rest else m
  end.

(** The elements before the first one whose key is greater than [k]. *)
Fixpoint until_upper_bound (k : K) (m : multimap) : multimap :=
  match m with
  | [] => []
  | (k', v') :: rest =>
      if less k k' then [] else (k', v') :: until_upper_bound k rest
  end.

Definition equal_range (k : K) (m : multimap) : multimap :=
  until_upper_bound k (lower_bound k m).

(** The representation invariant: no element is followed, anywhere, by one
    with a smaller key. *)
Definition ordered (m : multimap) : Prop :=
  StronglySorted (fun a b => less (fst b) (fst a) = false) m.

(** The elements a lookup of [k] is about. *)
Definition with_key (k : K) (m : multimap) : multimap :=
  filter (fun kv => equivalent k (fst kv)) m.
End Multimap.

(** ** The class *)

Inductive exception : Type :=
| invalid_argument      (* thrown by addListener *)
| bad_function_call     (* calling an empty std::function *)
| callback_exception.   (* whatever a listener's callback throws *)

Inductive outcome (A : Type) : Type :=
| returned (a : A)
| thrown (x : exception).
Arguments returned {A} a.
Arguments thrown {A} x.

Section EventEmitter.
Variables EventType Event Target : Type.
Context `{Comparable EventType}.

(** [std::function<void(EventType, const Event&)>]: empty, or holding a
    callable target. *)
Definition CallbackFunction : Type := option Target.
Definition ListenerID : Type := Z.

Record Listener : Type := {
  id : Z;                        (* int *)
  callback : CallbackFunction
}.

Record EventEmitter : Type := {
  listeners : multimap (K := EventType) (V := Listener);
  lastListenerID : ListenerID    (* unsigned int *)
}.

(** [EventEmitter() {}] with the member initialiser [lastListenerID = 0]. *)
Definition init : EventEmitter :=
  {| listeners := []; lastListenerID := 0 |}.

(** *** Member functions as state transformers that may throw

    A call that runs from its first line to its return with no other thread
    in between finds [listenersMutex] free and leaves it free, so the mutex
    is no part of the state here; it is one where calls are cut into steps,
    further down. *)

Definition M (A : Type) : Type := EventEmitter -> outcome A * EventEmitter.

Definition ret {A} (a : A) : M A := fun s => (returned a, s).
Definition throw {A} (x : exception) : M A := fun s => (thrown x, s).
Definition bind {A B} (c : M A) (k : A -> M B) : M B :=
  fun s =>
    match c s with
    | (returned a, s') => k a s'
    | (thrown x, s') => (thrown x, s')
    end.

Notation "x <- c ;; k" := (bind c (fun x => k))
  (at level 61, c at next level, right associativity).
Notation "c ;; k" := (bind c (fun _ => k))
  (at level 61, right associativity).

(** [lastListenerID++] *)
Definition post_increment_lastListenerID : M ListenerID :=
  fun s =>
    (returned (lastListenerID s),
     {| listeners := listeners s;
        lastListenerID := to_unsigned (lastListenerID s + 1) |}).

(** [listeners.emplace(eventType, listener)] *)
Definition listeners_emplace (eventType : EventType) (listener : Listener)
  : M unit :=
  fun s =>
    (returned tt,
     {| listeners := emplace eventType listener (listeners s);
        lastListenerID := lastListenerID s |}).

Definition addListener (eventType : EventType) (callback : CallbackFunction)
  : M ListenerID :=
  match callback with
  | None => throw invalid_argument
  | Some _ =>
      old <- post_increment_lastListenerID ;;
      let listenerID := to_int old in
      let listener := {| id := listenerID; callback := callback |} in
      listeners_emplace eventType listener ;;
      ret (to_unsigned listenerID)
  end.

(** [it->second.id == id]: an [int] against an [unsigned int], compared
    after the usual conversion of the [int]. *)
Definition has_id (id0 : ListenerID) (listener : Listener) : bool :=
  to_unsigned (id listener) =? id0.

(** The [for] loop of [removeListener], from [begin()] to [end()]. *)
Fixpoint erase_matching (id0 : ListenerID) (m : list (EventType * Listener))
  : list (EventType * Listener) :=
  match m with
  | [] => []
  | it :: rest =>
      if has_id id0 (snd it)
      then erase_matching id0 rest
      else it :: erase_matching id0 rest
  end.

Definition removeListener (id0 : ListenerID) : M unit :=
  fun s =>
    (returned tt,
     {| listeners := erase_matching id0 (listeners s);
        lastListenerID := lastListenerID s |}).

(** The identifier under which [removeListener] finds an element. *)
Definition unsigned_id (kv : EventType * Listener) : ListenerID :=
  to_unsigned (id (snd kv)).

Definition stored_ids (s : EventEmitter) : list ListenerID :=
  map unsigned_id (listeners s).

(** An element whose callback can be called. *)
Definition callable (kv : EventType * Listener) : Prop :=
  callback (snd kv) <> None.

(** *** Histories of calls

    The two public member functions are the only code that writes the
    members, so every state of an emitter is the state after some sequence
    of calls to them, made by whoever holds the object -- a listener's
    callback running inside [emit] included. *)

Inductive Call : Type :=
| AddListener (eventType : EventType) (callback : CallbackFunction)
| RemoveListener (id0 : ListenerID).

Definition perform (c : Call) : M (option ListenerID) :=
  match c with
  | AddListener eventType callback =>
      i <- addListener eventType callback ;; ret (Some i)
  | RemoveListener id0 =>
      removeListener id0 ;; ret None
  end.

Definition step (s : EventEmitter) (c : Call) : EventEmitter :=
  snd (perform c s).

Definition run (cs : list Call) (s : EventEmitter) : EventEmitter :=
  fold_left step cs s.

Definition state_after (cs : list Call) : EventEmitter := run cs init.

(** The identifiers [addListener] returned during [cs], in order. *)
Fixpoint returned_ids (cs : list Call) (s : EventEmitter)
  : list ListenerID :=
  match cs with
  | [] => []
  | c :: rest =>
      match fst (perform c s) with
      | returned (Some i) => i :: returned_ids rest (step s c)
      | _ => returned_ids rest (step s c)
      end
  end.

(** What the registrations of [cs] that were handed the identifier [id0]
    registered: the event type and the callback of each. *)
Fixpoint registered_as (id0 : ListenerID) (cs : list Call) (s : EventEmitter)
  : list (EventType * CallbackFunction) :=
  match cs with
  | [] => []
  | c :: rest =>
      match c, fst (perform c s) with
      | AddListener eventType callback, returned (Some i) =>
          if i =? id0
          then (eventType, callback) :: registered_as id0 rest (step s c)
          else registered_as id0 rest (step s c)
      | _, _ => registered_as id0 rest (step s c)
      end
  end.

(** Calls of [addListener] that pass its argument check. *)
Definition registers (c : Call) : bool :=
  match c with
  | AddListener _ (Some _) => true
  | _ => false
  end.

Definition registrations (cs : list Call) : nat :=
  length (filter registers cs).

(** Register a listener and remove it again, [n] times over, when the
    counter stands at [first]. *)
Fixpoint churn (eventType : EventType) (target : Target)
               (first : Z) (n : nat) : list Call :=
  match n with
  | O => []
  | S n' =>
      AddListener eventType (Some target)
        :: RemoveListener (to_unsigned first)
        :: churn eventType target (first + 1) n'
  end.

(** *** Registration order

    A second container for the same history, following the words "in
    registration order": a plain list, a new listener appended at its end,
    a removed one dropped from where it stands. *)




(** *** emit

    What a callback does when called is not code of this class.  It is a
    parameter here: called with the event type and the event in some state
    [World] of the rest of the program, a target makes some calls back into
    the emitter (the mutex is free while callbacks run), then returns or
    throws. *)

Record Reaction : Type := {
  reentrant : list Call;
  raises : bool
}.

Variable World : Type.
Variable behaviour : Target -> EventType -> Event -> World -> Reaction * World.

(** One execution of [listener.second.callback(eventType, event)]. *)
Record Invocation : Type := {
  entry : EventType * Listener;   (* the element of matchingListeners *)
  passed_type : EventType;
  passed_event : Event;
  reaction : Reaction
}.

Record Emission : Type := {
  invoked : list Invocation;
  finished : outcome unit;
  registry : EventEmitter;
  world : World
}.

(** The range-based [for] over [matchingListeners]: nothing catches what a
    callback throws, so the first throw ends the loop and [emit]. *)
Fixpoint dispatch (matchingListeners : list (EventType * Listener))
                  (eventType : EventType) (event : Event)
                  (s : EventEmitter) (w : World) : Emission :=
  match matchingListeners with
  | [] =>
      {| invoked := []; finished := returned tt; registry := s; world := w |}
  | listener :: rest =>
      match callback (snd listener) with
      | None =>
          {| invoked := []; finished := thrown bad_function_call;
             registry := s; world := w |}
      | Some target =>
          let (r, w') := behaviour target eventType event w in
          let s' := run (reentrant r) s in
          let call := {| entry := listener; passed_type := eventType;
                         passed_event := event; reaction := r |} in
          if raises r
          then {| invoked := [call]; finished := thrown callback_exception;
                  registry := s'; world := w' |}
          else
            let e := dispatch rest eventType event s' w' in
            {| invoked := call :: invoked e; finished := finished e;
               registry := registry e; world := world e |}
      end
  end.

Definition emit (eventType : EventType) (event : Event)
                (s : EventEmitter) (w : World) : Emission :=
  (* the block that holds the lock *)
  let listenerRange := equal_range eventType (listeners s) in
  let matchingListeners := listenerRange in
  (* the lock is released; call the callbacks *)
  dispatch matchingListeners eventType event s w.

(** The calls made into the emitter while an emission ran. *)
Definition reentered (e : Emission) : list Call :=
  flat_map (fun call => reentrant (reaction call)) (invoked e).

End EventEmitter.

Arguments init {EventType Target}.
Arguments RemoveListener {EventType Target} id0.

(** ** Calls in flight on several threads

    The sequential functions above run one call from its first line to its
    return.  Here a call is cut where the header touches a member: each step
    is one access to [lastListenerID], to [listeners] or to [listenersMutex],
    and a schedule says which thread takes the next step.  [lastListenerID]
    is a plain [unsigned int], so [lastListenerID++] is a load and a store.

    The steps are those of the header.  What [std::function] and
    [std::multimap] run on its behalf inside a guarded block -- copying or
    destroying a callback's target, comparing event types -- is taken to
    return without calling into the emitter. *)

Inductive Access : Type :=
| ReadCounter
| WriteCounter
| ReadListeners
| WriteListeners.

Record Touch : Type := {
  thread : nat;
  access : Access;
  holding_lock : bool
}.

Section Threads.
Variables EventType Target : Type.
Context `{Comparable EventType}.

(** What a call ends with.  An [emit] ends here where its guard's scope
    ends, with the vector it copied: the loop over the vector touches no
    member of the emitter. *)
Inductive Value : Type :=
| listener_id (i : ListenerID)
| nothing
| matching (l : list (EventType * Listener Target)).

(** Where a thread stands in the member function it called: the line of
    the header it executes next, and its locals. *)
Inductive Frame : Type :=
| addListener_31 (eventType : EventType) (callback : CallbackFunction Target)
| addListener_36_load (eventType : EventType)
                      (callback : CallbackFunction Target)
| addListener_36_store (eventType : EventType)
                       (callback : CallbackFunction Target) (old : ListenerID)
| addListener_37 (eventType : EventType)
                 (callback : CallbackFunction Target) (listenerID : Z)
| addListener_39 (eventType : EventType)
                 (callback : CallbackFunction Target) (listenerID : Z)
| addListener_41 (listenerID : Z)
| removeListener_49 (id0 : ListenerID)
| removeListener_50 (id0 : ListenerID)
| removeListener_61
| emit_76 (eventType : EventType)
| emit_78 (eventType : EventType)
| emit_80 (matchingListeners : list (EventType * Listener Target))
| done (result : outcome Value).

Record Machine : Type := {
  listenersMutex : option nat;           (* the thread that holds it *)
  object : EventEmitter EventType Target;
  frames : list Frame;                   (* one per thread *)
  touches : list Touch                   (* latest first *)
}.

Fixpoint set_frame (t : nat) (f : Frame) (fs : list Frame) : list Frame :=
  match fs, t with
  | [], _ => []
  | _ :: rest, O => f :: rest
  | g :: rest, S t' => g :: set_frame t' f rest
  end.

Definition holds (t : nat) (m : Machine) : bool :=
  match listenersMutex m with
  | Some owner => Nat.eqb owner t
  | None => false
  end.

(** Thread [t] goes on to frame [f]; the members are left alone. *)
Definition goto (t : nat) (f : Frame) (m : Machine) : Machine :=
  {| listenersMutex := listenersMutex m; object := object m;
     frames := set_frame t f (frames m); touches := touches m |}.

(** Thread [t] reads or writes a member and goes on to [f]. *)
Definition touch (t : nat) (a : Access) (o : EventEmitter EventType Target)
                 (f : Frame) (m : Machine) : Machine :=
  {| listenersMutex := listenersMutex m; object := o;
     frames := set_frame t f (frames m);
     touches := {| thread := t; access := a; holding_lock := holds t m |}
                  :: touches m |}.

(** [std::lock_guard<std::mutex> lock(listenersMutex)]: the thread waits
    while another one holds the mutex. *)
Definition acquire (t : nat) (f : Frame) (m : Machine) : Machine :=
  match listenersMutex m with
  | Some _ => m
  | None =>
      {| listenersMutex := Some t; object := object m;
         frames := set_frame t f (frames m); touches := touches m |}
  end.

(** The end of the guard's scope. *)
Definition release (t : nat) (f : Frame) (m : Machine) : Machine :=
  {| listenersMutex := None; object := object m;
     frames := set_frame t f (frames m); touches := touches m |}.

Definition step_thread (m : Machine) (t : nat) : Machine :=
  match nth_error (frames m) t with
  | None => m
  | Some f =>
      let o := object m in
      match f with
      | addListener_31 eventType callback =>
          match callback with
          | None => goto t (done (thrown invalid_argument)) m
          | Some _ => goto t (addListener_36_load eventType callback) m
          end
      | addListener_36_load eventType callback =>
          touch t ReadCounter o
            (addListener_36_store eventType callback (lastListenerID o)) m
      | addListener_36_store eventType callback old =>
          touch t WriteCounter
            {| listeners := listeners o;
               lastListenerID := to_unsigned (old + 1) |}
            (addListener_37 eventType callback (to_int old)) m
      | addListener_37 eventType callback listenerID =>
          acquire t (addListener_39 eventType callback listenerID) m
      | addListener_39 eventType callback listenerID =>
          touch t WriteListeners
            {| listeners :=
                 emplace eventType
                   {| id := listenerID; callback := callback |}
                   (listeners o);
               lastListenerID := lastListenerID o |}
            (addListener_41 listenerID) m
      | addListener_41 listenerID =>
          release t (done (returned (listener_id (to_unsigned listenerID)))) m
      | removeListener_49 id0 => acquire t (removeListener_50 id0) m
      | removeListener_50 id0 =>
          touch t WriteListeners
            {| listeners := erase_matching id0 (listeners o);
               lastListenerID := lastListenerID o |}
            removeListener_61 m
      | removeListener_61 => release t (done (returned nothing)) m
      | emit_76 eventType => acquire t (emit_78 eventType) m
      | emit_78 eventType =>
          touch t ReadListeners o
            (emit_80 (equal_range eventType (listeners o))) m
      | emit_80 matchingListeners =>
          release t (done (returned (matching matchingListeners))) m
      | done _ => m
      end
  end.

Definition run_schedule (schedule : list nat) (m : Machine) : Machine :=
  fold_left step_thread schedule m.

(** Threads about to enter their calls on an emitter in state [o]. *)
Definition start (o : EventEmitter EventType Target) (calls : list Frame)
  : Machine :=
  {| listenersMutex := None; object := o; frames := calls; touches := [] |}.

(** The accesses made without the mutex. *)
Definition unguarded (m : Machine) : list Touch :=
  filter (fun a => negb (holding_lock a)) (touches m).

(** A thread that has not yet executed a line of the function it calls. *)
Definition entering (f : Frame) : Prop :=
  match f with
  | addListener_31 _ _ | removeListener_49 _ | emit_76 _ => True
  | _ => False
  end.

(** The lines inside the scope of a [lock_guard]. *)
Definition in_guard_scope (f : Frame) : bool :=
  match f with
  | addListener_39 _ _ _ | addListener_41 _
  | removeListener_50 _ | removeListener_61
  | emit_78 _ | emit_80 _ => true
  | _ => false
  end.

(** A thread holds the mutex exactly while it is inside the scope of one
    of the guards. *)
Definition lock_follows_scope (m : Machine) : Prop :=
  forall t f, nth_error (frames m) t = Some f ->
              holds t m = in_guard_scope f.

(** The mutex is free or held by one of the threads. *)
Definition owner_is_thread (m : Machine) : Prop :=
  match listenersMutex m with
  | Some t => (t < length (frames m))%nat
  | None => True
  end.

(** A thread about to make a call of a history. *)
Definition enter (c : Call EventType Target) : Frame :=
  match c with
  | AddListener eventType callback => addListener_31 eventType callback
  | RemoveListener id0 => removeListener_49 id0
  end.

(** What the calls of a history end with when they are made one after the
    other, by the sequential functions. *)
Definition value_of (r : outcome (option ListenerID)) : outcome Value :=
  match r with
  | returned (Some i) => returned (listener_id i)
  | returned None => returned nothing
  | thrown x => thrown x
  end.

Fixpoint outcomes (cs : list (Call EventType Target))
                  (s : EventEmitter EventType Target)
  : list (outcome Value) :=
  match cs with
  | [] => []
  | c :: rest => value_of (fst (perform c s)) :: outcomes rest (step s c)
  end.

End Threads.

(** The schedule in which threads [first], [first + 1], ... each run their
    call to its end before the next one starts (no call has more than six
    steps; a thread whose call has ended does nothing when scheduled). *)
Definition one_by_one (first n : nat) : list nat :=
  flat_map (fun t => repeat t 6) (seq first n).

(** The members a [lock_guard] is held for, line by line of the header. *)
Definition guarded_in_header (a : Access) : bool :=
  match a with
  | ReadListeners | WriteListeners => true
  | ReadCounter | WriteCounter => false
  end.

Arguments removeListener_49 {EventType Target} id0.
Arguments removeListener_50 {EventType Target} id0.
Arguments removeListener_61 {EventType Target}.
Arguments addListener_41 {EventType Target} listenerID.
Arguments emit_76 {EventType Target} eventType.
Arguments emit_78 {EventType Target} eventType.
Arguments done {EventType Target} result.
Arguments nothing {EventType Target}.
Arguments listener_id {EventType Target} i.

(** ** A small program

    Event types and events are numbers; a listener's callback is one of
    three lambdas. *)

Module Example.

Inductive Handler : Type :=
| Quiet                      (* returns *)
| Failing                    (* throws *)
| Unsubscribe (id0 : Z).     (* calls removeListener(id0), returns *)

Definition handler (h : Handler) (eventType event : nat) (w : unit)
  : Reaction nat Handler * unit :=
  match h with
  | Quiet => ({| reentrant := []; raises := false |}, w)
  | Failing => ({| reentrant := []; raises := true |}, w)
  | Unsubscribe id0 =>
      ({| reentrant := [RemoveListener id0]; raises := false |}, w)
  end.

Definition emitter : Type := EventEmitter nat Handler.

Definition emit (eventType event : nat) (s : emitter)
  : Emission nat nat Handler unit :=
  emit handler eventType event s tt.

(** Two listeners for event type 7 and one for 3, one of them removed and
    registered again. *)
Definition calm : list (Call nat Handler) :=
  [AddListener 7%nat (Some Quiet);
   AddListener 3%nat (Some Failing);
   RemoveListener 0;
   AddListener 7%nat (Some Quiet);
   AddListener 7%nat (Some Quiet)].

(** The first listener for 7 throws. *)
Definition stormy : list (Call nat Handler) :=
  [AddListener 7%nat (Some Failing);
   AddListener 7%nat (Some Quiet)].

(** A listener that unsubscribes when it hears of an event. *)
Definition one_shot : list (Call nat Handler) :=
  [AddListener 7%nat (Some (Unsubscribe 0))].

(** One listener that stays, then [UINT_MAX] more that come and go. *)
Definition wrapped : list (Call nat Handler) :=
  AddListener 7%nat (Some Quiet)
    :: churn 7%nat Quiet 1 (Z.to_nat UINT_MAX).

(** ... and one more after them. *)
Definition wrapped_again : list (Call nat Handler) :=
  wrapped ++ [AddListener 7%nat (Some Failing)].

(** Two threads call [addListener] on a new emitter; each gets as far as
    reading the counter before the other writes it. *)
Definition racing : list (Frame nat Handler) :=
  [addListener_31 7%nat (Some Quiet);
   addListener_31 7%nat (Some Failing)].

Definition interleaving : list nat :=
  [0; 0; 1; 1; 0; 1; 0; 0; 0; 1; 1; 1]%nat.

End Example.

(** * Properties *)

Unset Implicit Arguments.
Unset Maximal Implicit Insertion.

(** ** The order and the container *)

Section MultimapFacts.
Context {K V : Type} `{Comparable K}.
Implicit Types (a b c k : K) (v : V) (m : list (K * V)).

Lemma less_asymmetric a b : less a b = true -> less b a = false.
Proof.
  intros Hab. destruct (less b a) eqn:Hba; [|reflexivity].
  rewrite <- (less_irreflexive a). symmetry.
  exact (less_transitive _ _ _ Hab Hba).
Qed.

(** "Not less" is transitive: what keeps a sorted sequence sorted. *)
Lemma not_less_transitive a b c :
  less a b = false -> less b c = false -> less a c = false.
Proof.
  intros Hab Hbc. destruct (less a c) eqn:Hac; [|reflexivity].
  destruct (less b a) eqn:Hba.
  - rewrite (less_transitive _ _ _ Hba Hac) in Hbc. discriminate.
  - destruct (less c b) eqn:Hcb.
    + rewrite (less_transitive _ _ _ Hac Hcb) in Hab. discriminate.
    + destruct (equivalence_transitive _ _ _ Hab Hba Hbc Hcb) as [Hf _].
      rewrite Hf in Hac. discriminate.
Qed.

Lemma equivalent_true a b :
  equivalent a b = true <-> less a b = false /\ less b a = false.
Proof.
  unfold equivalent. rewrite andb_true_iff, !negb_true_iff. tauto.
Qed.

Lemma equivalent_reflexive a : equivalent a a = true.
Proof. apply equivalent_true. split; apply less_irreflexive. Qed.

Lemma In_emplace k v m x :
  In x (emplace k v m) <-> x = (k, v) \/ In x m.
Proof.
  induction m as [|[k' v'] m IH]; simpl.
  - intuition congruence.
  - destruct (less k k'); simpl; [intuition congruence|].
    rewrite IH. intuition congruence.
Qed.

Lemma emplace_Permutation k v m : Permutation (emplace k v m) ((k, v) :: m).
Proof.
  induction m as [|[k' v'] m IH]; simpl.
  - apply Permutation_refl.
  - destruct (less k k').
    + apply Permutation_refl.
    + eapply perm_trans; [apply perm_skip, IH | apply perm_swap].
Qed.

Lemma length_emplace k v m : length (emplace k v m) = S (length m).
Proof. exact (Permutation_length (emplace_Permutation k v m)). Qed.

Lemma ordered_emplace k v m : ordered m -> ordered (emplace k v m).
Proof.
  unfold ordered. induction 1 as [|[k' v'] m Hm IH Hall]; simpl.
  - repeat constructor.
  - destruct (less k k') eqn:Hk.
    + constructor; [constructor; assumption|].
      constructor; [exact (less_asymmetric _ _ Hk)|].
      rewrite Forall_forall in *. intros x Hx. simpl.
      apply not_less_transitive with k'; [apply Hall, Hx|].
      exact (less_asymmetric _ _ Hk).
    + constructor; [exact IH|].
      rewrite Forall_forall in *. intros x Hx.
      apply In_emplace in Hx. destruct Hx as [->|Hx]; [exact Hk|].
      apply Hall, Hx.
Qed.

Lemma ordered_filter (f : K * V -> bool) m : ordered m -> ordered (filter f m).
Proof.
  unfold ordered. induction 1 as [|x m Hm IH Hall]; simpl.
  - constructor.
  - destruct (f x); [|exact IH].
    constructor; [exact IH|].
    rewrite Forall_forall in *. intros y Hy.
    apply filter_In in Hy. apply Hall, Hy.
Qed.

(** Past an element greater than [k] nothing is equivalent to [k]. *)
Lemma with_key_above k k' m :
  less k k' = true ->
  Forall (fun x => less (fst x) k' = false) m ->
  with_key k m = [].
Proof.
  intros Hk. induction 1 as [|x m Hx _ IH]; simpl; [reflexivity|].
  fold (with_key k m). rewrite IH.
  destruct (equivalent k (fst x)) eqn:He; [|reflexivity].
  apply equivalent_true in He. destruct He as [He _].
  rewrite (not_less_transitive _ _ _ He Hx) in Hk. discriminate.
Qed.

Lemma until_upper_bound_with_key k m :
  ordered m ->
  Forall (fun x => less (fst x) k = false) m ->
  until_upper_bound k m = with_key k m.
Proof.
  unfold ordered. induction 1 as [|[k' v'] m Hm IH Hall]; intros Hge.
  - reflexivity.
  - inversion Hge as [|? ? Hk' Hge']; subst. simpl in *.
    fold (with_key k m). unfold equivalent. simpl. rewrite Hk'.
    destruct (less k k') eqn:Hk; simpl.
    + symmetry. apply with_key_above with k'; assumption.
    + f_equal. apply IH, Hge'.
Qed.

(** [equal_range] finds the elements whose key is equivalent to [k], all
    of them, in the order they stand in. *)
Lemma equal_range_with_key k m :
  ordered m -> equal_range k m = with_key k m.
Proof.
  unfold equal_range, ordered.
  induction 1 as [|[k' v'] m Hm IH Hall]; [reflexivity|].
  unfold with_key. cbn [lower_bound filter fst]. fold (with_key k m).
  unfold equivalent.
  destruct (less k' k) eqn:Hk'.
  - rewrite andb_false_r. exact IH.
  - rewrite andb_true_r. cbn [until_upper_bound].
    destruct (less k k') eqn:Hk; cbn [negb].
    + symmetry. apply with_key_above with k'; assumption.
    + f_equal. apply until_upper_bound_with_key; [exact Hm|].
      rewrite Forall_forall in *. intros x Hx.
      apply not_less_transitive with k'; [apply Hall, Hx|exact Hk'].
Qed.

Lemma with_key_cons k x m :
  with_key k (x :: m) =
  if equivalent k (fst x) then x :: with_key k m else with_key k m.
Proof. reflexivity. Qed.

Lemma with_key_app k m1 m2 :
  with_key k (m1 ++ m2) = with_key k m1 ++ with_key k m2.
Proof. apply filter_app. Qed.

(** Among the elements of one key the new element comes last. *)
Lemma with_key_emplace k k' v m :
  ordered m ->
  with_key k (emplace k' v m) = with_key k (m ++ [(k', v)]).
Proof.
  unfold ordered. induction 1 as [|[k1 v1] m Hm IH Hall]; [reflexivity|].
  cbn [emplace app]. destruct (less k' k1) eqn:Hk1.
  - rewrite !with_key_cons, with_key_app, with_key_cons. cbn [fst].
    destruct (equivalent k k') eqn:He;
      [|cbn [with_key filter]; rewrite app_nil_r; reflexivity].
    apply equivalent_true in He. destruct He as [He1 He2].
    assert (Hkk1 : less k k1 = true).
    { destruct (less k k1) eqn:Hx; [reflexivity|].
      rewrite (not_less_transitive _ _ _ He2 Hx) in Hk1. discriminate. }
    rewrite (@with_key_above k k1 m Hkk1 Hall).
    unfold equivalent. rewrite Hkk1. reflexivity.
  - rewrite !with_key_cons, IH. reflexivity.
Qed.

Lemma equal_range_incl k m : incl (equal_range k m) m.
Proof.
  unfold equal_range.
  assert (Hu : forall l : list (K * V), incl (until_upper_bound k l) l).
  { induction l as [|[k' v'] l IH]; simpl; [apply incl_refl|].
    destruct (less k k'); [intros x []|].
    apply incl_cons; [left; reflexivity|]. apply incl_tl, IH. }
  assert (Hl : incl (lower_bound k m) m).
  { induction m as [|[k' v'] l IH]; simpl; [apply incl_refl|].
    destruct (less k' k); [apply incl_tl, IH|apply incl_refl]. }
  exact (incl_tran (Hu _) Hl).
Qed.
End MultimapFacts.

(** ** The integer conversions *)

Lemma to_unsigned_range z : 0 <= to_unsigned z <= UINT_MAX.
Proof.
  unfold to_unsigned.
  pose proof (Z.mod_pos_bound z (UINT_MAX + 1)). unfold UINT_MAX in *. lia.
Qed.

Lemma to_unsigned_small z : 0 <= z <= UINT_MAX -> to_unsigned z = z.
Proof.
  unfold to_unsigned, UINT_MAX. intros Hz. apply Z.mod_small. lia.
Qed.

Lemma to_unsigned_idempotent z : to_unsigned (to_unsigned z) = to_unsigned z.
Proof. apply to_unsigned_small, to_unsigned_range. Qed.

(** An [unsigned int] stored in an [int] and read back is the same number. *)
Lemma to_unsigned_to_int z : to_unsigned (to_int z) = to_unsigned z.
Proof.
  unfold to_int. cbv zeta. destruct (to_unsigned z <=? INT_MAX).
  - apply to_unsigned_idempotent.
  - unfold to_unsigned at 1.
    replace (to_unsigned z - (UINT_MAX + 1))
      with (to_unsigned z + (-1) * (UINT_MAX + 1)) by ring.
    rewrite Z.mod_add by (unfold UINT_MAX; lia).
    apply to_unsigned_idempotent.
Qed.

Lemma to_unsigned_succ z :
  to_unsigned (to_unsigned z + 1) = to_unsigned (z + 1).
Proof.
  unfold to_unsigned.
  rewrite Zplus_mod_idemp_l. reflexivity.
Qed.

Lemma to_unsigned_wrap : to_unsigned (UINT_MAX + 1) = 0.
Proof. reflexivity. Qed.

(** ** The member functions *)

Section EventEmitterFacts.
Variables EventType Event Target : Type.
Context `{Comparable EventType}.

#[local] Abbreviation Emitter := (EventEmitter EventType Target).
#[local] Abbreviation Entry := (EventType * Listener Target)%type.
Implicit Types (s : Emitter) (cs : list (Call EventType Target))
               (k eventType : EventType) (m : list Entry).

Lemma addListener_empty k s :
  addListener k None s = (thrown invalid_argument, s).
Proof. reflexivity. Qed.

Lemma addListener_target k (t : Target) s :
  addListener k (Some t) s =
  (returned (to_unsigned (lastListenerID s)),
   {| listeners :=
        emplace k {| id := to_int (lastListenerID s); callback := Some t |}
                (listeners s);
      lastListenerID := to_unsigned (lastListenerID s + 1) |}).
Proof.
  unfold addListener, bind, post_increment_lastListenerID,
    listeners_emplace, ret. cbn.
  rewrite to_unsigned_to_int. reflexivity.
Qed.

Lemma erase_matching_filter id0 m :
  erase_matching id0 m = filter (fun kv => negb (has_id id0 (snd kv))) m.
Proof.
  induction m as [|kv m IH]; simpl; [reflexivity|].
  destruct (has_id id0 (snd kv)); simpl; rewrite IH; reflexivity.
Qed.

Lemma has_id_true id0 (kv : Entry) :
  has_id id0 (snd kv) = true <-> unsigned_id kv = id0.
Proof. unfold has_id, unsigned_id. apply Z.eqb_eq. Qed.

Lemma step_add_empty s k : step s (AddListener k None) = s.
Proof. reflexivity. Qed.

Lemma step_add s k (t : Target) :
  step s (AddListener k (Some t)) =
  {| listeners :=
       emplace k {| id := to_int (lastListenerID s); callback := Some t |}
               (listeners s);
     lastListenerID := to_unsigned (lastListenerID s + 1) |}.
Proof.
  unfold step, perform, bind. rewrite addListener_target. reflexivity.
Qed.

Lemma step_remove s id0 :
  step s (RemoveListener id0) =
  {| listeners := erase_matching id0 (listeners s);
     lastListenerID := lastListenerID s |}.
Proof. reflexivity. Qed.

Lemma run_app cs cs' s : run (cs ++ cs') s = run cs' (run cs s).
Proof. apply fold_left_app. Qed.

Lemma state_after_snoc cs c :
  state_after (cs ++ [c]) = step (state_after cs) c.
Proof. unfold state_after. rewrite run_app. reflexivity. Qed.

Lemma registrations_app cs cs' :
  registrations (cs ++ cs') = (registrations cs + registrations cs')%nat.
Proof. unfold registrations. rewrite filter_app. apply length_app. Qed.

(** *** What a history keeps true *)

Lemma step_ordered s c :
  ordered (listeners s) -> ordered (listeners (step s c)).
Proof.
  intros Hs. destruct c as [k [t|]|id0].
  - rewrite step_add. apply ordered_emplace, Hs.
  - exact Hs.
  - rewrite step_remove. cbn. rewrite erase_matching_filter.
    apply ordered_filter, Hs.
Qed.

Lemma run_ordered cs s :
  ordered (listeners s) -> ordered (listeners (run cs s)).
Proof.
  revert s. induction cs as [|c cs IH]; intros s Hs; [exact Hs|].
  apply IH, step_ordered, Hs.
Qed.

Lemma state_after_ordered cs : ordered (listeners (state_after cs)).
Proof. apply run_ordered. constructor. Qed.

Lemma step_callable s c :
  Forall callable (listeners s) -> Forall callable (listeners (step s c)).
Proof.
  intros Hs. destruct c as [k [t|]|id0].
  - rewrite step_add. cbn. rewrite Forall_forall in *. intros x Hx.
    apply In_emplace in Hx. destruct Hx as [->|Hx]; [discriminate|].
    apply Hs, Hx.
  - exact Hs.
  - rewrite step_remove. cbn. rewrite erase_matching_filter.
    rewrite Forall_forall in *. intros x Hx. apply filter_In in Hx.
    apply Hs, Hx.
Qed.

Lemma run_callable cs s :
  Forall callable (listeners s) -> Forall callable (listeners (run cs s)).
Proof.
  revert s. induction cs as [|c cs IH]; intros s Hs; [exact Hs|].
  apply IH, step_callable, Hs.
Qed.

Lemma step_counter s c :
  lastListenerID (step s c) =
  if registers c then to_unsigned (lastListenerID s + 1)
  else lastListenerID s.
Proof.
  destruct c as [k [t|]|id0]; [rewrite step_add| |]; reflexivity.
Qed.

(** The counter counts the registrations, modulo [UINT_MAX + 1]. *)
Lemma run_counter cs s :
  to_unsigned (lastListenerID (run cs s)) =
  to_unsigned (lastListenerID s + Z.of_nat (registrations cs)).
Proof.
  revert s. induction cs as [|c cs IH]; intros s.
  - cbn. f_equal. lia.
  - change (run (c :: cs) s) with (run cs (step s c)).
    rewrite IH, step_counter. unfold registrations. cbn [filter].
    destruct (registers c); cbn [length].
    + rewrite Nat2Z.inj_succ. unfold to_unsigned at 1 3.
      unfold to_unsigned.
      rewrite Zplus_mod_idemp_l. f_equal. lia.
    + reflexivity.
Qed.

Lemma state_after_counter cs :
  lastListenerID (state_after cs) = to_unsigned (Z.of_nat (registrations cs)).
Proof.
  assert (Hr : forall cs' s, 0 <= lastListenerID s <= UINT_MAX ->
                 0 <= lastListenerID (run cs' s) <= UINT_MAX).
  { induction cs' as [|c cs' IH]; intros s Hs; [exact Hs|].
    apply IH. rewrite step_counter.
    destruct (registers c); [apply to_unsigned_range|exact Hs]. }
  rewrite <- (to_unsigned_small (lastListenerID (state_after cs))).
  - unfold state_after. rewrite run_counter. reflexivity.
  - apply Hr. cbn. unfold UINT_MAX. lia.
Qed.

(** The [i]-th registration of a history is handed the counter's value at
    that moment. *)
Lemma returned_ids_counter cs s :
  returned_ids cs s =
  map (fun i => to_unsigned (lastListenerID s + Z.of_nat i))
      (seq 0 (registrations cs)).
Proof.
  revert s. induction cs as [|c cs IH]; intros s; [reflexivity|].
  cbn [returned_ids]. rewrite IH, step_counter.
  destruct c as [k [t|]|id0]; cbn [registers].
  - unfold perform, bind. rewrite addListener_target. cbn [fst ret].
    unfold registrations. cbn [filter registers length seq map].
    f_equal; [f_equal; lia|].
    rewrite <- seq_shift, map_map. apply map_ext. intros i.
    rewrite Nat2Z.inj_succ. unfold to_unsigned.
    rewrite Zplus_mod_idemp_l. f_equal. lia.
  - reflexivity.
  - reflexivity.
Qed.

(** *** Identifiers in the container *)

Lemma erase_matching_none id0 m :
  Forall (fun kv => unsigned_id kv <> id0) m -> erase_matching id0 m = m.
Proof.
  induction 1 as [|kv m Hkv _ IH]; simpl; [reflexivity|].
  destruct (has_id id0 (snd kv)) eqn:Hid.
  - apply has_id_true in Hid. contradiction.
  - rewrite IH. reflexivity.
Qed.

Lemma erase_matching_gone id0 m :
  Forall (fun kv => unsigned_id kv <> id0) (erase_matching id0 m).
Proof.
  rewrite erase_matching_filter. apply Forall_forall. intros kv Hkv.
  apply filter_In in Hkv. destruct Hkv as [_ Hkv].
  apply negb_true_iff in Hkv. intros Hid.
  apply has_id_true in Hid. congruence.
Qed.

Lemma erase_matching_idempotent id0 m :
  erase_matching id0 (erase_matching id0 m) = erase_matching id0 m.
Proof. apply erase_matching_none, erase_matching_gone. Qed.

(** With distinct identifiers the loop of [removeListener] erases one
    element at most. *)
Lemma erase_matching_length id0 m :
  NoDup (map unsigned_id m) ->
  (length m <= length (erase_matching id0 m) + 1)%nat.
Proof.
  induction m as [|kv m IH]; intros Hnd; simpl; [lia|].
  apply NoDup_cons_iff in Hnd. destruct Hnd as [Hkv Hnd].
  destruct (has_id id0 (snd kv)) eqn:Hid.
  - apply has_id_true in Hid. rewrite erase_matching_none; [lia|].
    apply Forall_forall. intros x Hx Heq. apply Hkv.
    rewrite Hid, <- Heq. apply in_map, Hx.
  - simpl. specialize (IH Hnd). lia.
Qed.

Lemma NoDup_map_filter {A B} (f : A -> B) (g : A -> bool) (l : list A) :
  NoDup (map f l) -> NoDup (map f (filter g l)).
Proof.
  induction l as [|x l IH]; intros Hnd; simpl; [constructor|].
  apply NoDup_cons_iff in Hnd. destruct Hnd as [Hx Hnd].
  destruct (g x); simpl; [|apply IH, Hnd].
  constructor; [|apply IH, Hnd].
  intros Hin. apply Hx. apply in_map_iff in Hin.
  destruct Hin as [y [Hy Hin]]. apply filter_In in Hin.
  rewrite <- Hy. apply in_map, Hin.
Qed.

(** An element of the container was put there by a registration of the
    history, under the identifier that registration returned. *)
Lemma run_stored_as cs s kv :
  In kv (listeners (run cs s)) ->
  In kv (listeners s) \/
  In (fst kv, callback (snd kv)) (registered_as (unsigned_id kv) cs s).
Proof.
  revert s. induction cs as [|c cs IH]; intros s Hkv; [left; exact Hkv|].
  change (run (c :: cs) s) with (run cs (step s c)) in Hkv.
  apply IH in Hkv. cbn [registered_as].
  destruct c as [k [t|]|id0].
  - unfold perform at 1, bind. rewrite addListener_target. cbn [fst ret].
    destruct Hkv as [Hkv|Hkv].
    + rewrite step_add in Hkv. cbn in Hkv. apply In_emplace in Hkv.
      destruct Hkv as [->|Hkv]; [|left; exact Hkv].
      right. unfold unsigned_id. cbn [fst snd id callback].
      rewrite to_unsigned_to_int, Z.eqb_refl. left. reflexivity.
    + right. destruct (_ =? _); [right|]; exact Hkv.
  - destruct Hkv as [Hkv|Hkv]; [left|right]; exact Hkv.
  - destruct Hkv as [Hkv|Hkv]; [left|right; exact Hkv].
    rewrite step_remove in Hkv. cbn in Hkv.
    rewrite erase_matching_filter in Hkv. apply filter_In in Hkv.
    apply Hkv.
Qed.

Lemma registered_as_returned id0 cs s x :
  In x (registered_as id0 cs s) -> In id0 (returned_ids cs s).
Proof.
  revert s. induction cs as [|c cs IH]; intros s Hx; [contradiction|].
  cbn [registered_as returned_ids] in *.
  destruct c as [k cb|id1].
  - destruct (fst (perform (AddListener k cb) s)) as [[i|]|y].
    + destruct (Z.eqb_spec i id0) as [Heq|Hne].
      * destruct Hx as [_|Hx]; [left; exact Heq|right; apply IH, Hx].
      * right. apply IH, Hx.
    + apply IH, Hx.
    + apply IH, Hx.
  - destruct (fst (perform (RemoveListener id1) s)) as [[i|]|y];
      [right|..]; apply IH; exact Hx.
Qed.

Lemma run_stored cs s kv :
  In kv (listeners (run cs s)) ->
  In kv (listeners s) \/ In (unsigned_id kv) (returned_ids cs s).
Proof.
  intros Hkv. apply run_stored_as in Hkv.
  destruct Hkv as [Hkv|Hkv]; [left; exact Hkv|right].
  exact (registered_as_returned _ _ _ _ Hkv).
Qed.

(** Up to [UINT_MAX + 1] registrations the identifiers in the container
    are the numbers of the registrations that put them there. *)
Lemma state_after_stored_ids cs :
  Z.of_nat (registrations cs) <= UINT_MAX + 1 ->
  Forall (fun kv => 0 <= unsigned_id kv < Z.of_nat (registrations cs))
         (listeners (state_after cs)) /\
  NoDup (stored_ids (state_after cs)).
Proof.
  induction cs as [|c cs IH] using rev_ind; intros Hn.
  - split; constructor.
  - rewrite registrations_app in Hn |- *. rewrite state_after_snoc.
    unfold registrations at 2 in Hn. unfold registrations at 2.
    cbn [filter] in Hn |- *.
    destruct c as [k [t|]|id0]; cbn [registers length] in Hn |- *.
    + destruct IH as [Hb Hnd]; [lia|].
      rewrite step_add. unfold stored_ids. cbn [listeners].
      rewrite state_after_counter.
      set (n := registrations cs) in *.
      assert (Hid : to_unsigned (to_int (to_unsigned (Z.of_nat n)))
                    = Z.of_nat n).
      { rewrite to_unsigned_to_int, to_unsigned_idempotent.
        apply to_unsigned_small. lia. }
      split.
      * apply Forall_forall. intros x Hx. apply In_emplace in Hx.
        destruct Hx as [->|Hx].
        -- unfold unsigned_id. cbn. rewrite Hid. lia.
        -- rewrite Forall_forall in Hb. specialize (Hb x Hx). lia.
      * eapply Permutation_NoDup.
        -- apply Permutation_sym, Permutation_map, emplace_Permutation.
        -- cbn [map]. constructor; [|exact Hnd].
           unfold unsigned_id at 1. cbn. rewrite Hid. intros Hin.
           apply in_map_iff in Hin. destruct Hin as [x [Hx Hin]].
           rewrite Forall_forall in Hb. specialize (Hb x Hin). lia.
    + rewrite step_add_empty, Nat.add_0_r. apply IH. lia.
    + rewrite Nat.add_0_r in *. destruct (IH Hn) as [Hb Hnd].
      rewrite step_remove. unfold stored_ids. cbn [listeners].
      rewrite erase_matching_filter. split.
      * apply Forall_forall. intros x Hx. apply filter_In in Hx.
        rewrite Forall_forall in Hb. apply Hb, Hx.
      * apply NoDup_map_filter, Hnd.
Qed.

(** *** Registration order *)

Lemma with_key_filter k (g : Entry -> bool) m :
  with_key k (filter g m) = filter g (with_key k m).
Proof.
  unfold with_key. induction m as [|x m IH]; simpl; [reflexivity|].
  destruct (g x) eqn:Hg, (equivalent k (fst x)) eqn:He; simpl;
    rewrite ?Hg, ?He, IH; reflexivity.
Qed.



(** *** Coming and going *)

Lemma erase_matching_emplace id0 k (v : Listener Target) m :
  has_id id0 v = true ->
  erase_matching id0 (emplace k v m) = erase_matching id0 m.
Proof.
  intros Hv. induction m as [|[k' v'] m IH]; cbn [emplace].
  - cbn. rewrite Hv. reflexivity.
  - destruct (less k k').
    + cbn [erase_matching snd]. rewrite Hv. reflexivity.
    + cbn [erase_matching snd]. rewrite IH. reflexivity.
Qed.

Lemma registrations_churn k (t : Target) first n :
  registrations (churn k t first n) = n.
Proof.
  revert first. induction n as [|n IH]; intros first; [reflexivity|].
  unfold registrations in *. cbn. rewrite IH. reflexivity.
Qed.

(** Registering and removing leaves the container as it was and moves the
    counter on, as long as no listener that stays has one of the
    identifiers passed through. *)
Lemma run_churn k (t : Target) n : forall first s,
  lastListenerID s = to_unsigned first ->
  (forall j, 0 <= j < Z.of_nat n ->
     Forall (fun kv => unsigned_id kv <> to_unsigned (first + j))
            (listeners s)) ->
  run (churn k t first n) s =
  {| listeners := listeners s;
     lastListenerID := to_unsigned (first + Z.of_nat n) |}.
Proof.
  induction n as [|n IH]; intros first s Hc Hfree.
  - cbn. rewrite Z.add_0_r, <- Hc. destruct s; reflexivity.
  - cbn [churn]. change (run (?a :: ?b :: ?cs) s)
      with (run cs (step (step s a) b)).
    rewrite step_add, step_remove. cbn [listeners lastListenerID].
    rewrite erase_matching_emplace.
    2:{ unfold has_id. cbn. rewrite to_unsigned_to_int, Hc,
          to_unsigned_idempotent. apply Z.eqb_refl. }
    rewrite erase_matching_none.
    2:{ specialize (Hfree 0). rewrite Z.add_0_r in Hfree.
        apply Hfree. lia. }
    rewrite IH.
    + cbn [listeners]. f_equal. f_equal. lia.
    + cbn [lastListenerID]. rewrite Hc. apply to_unsigned_succ.
    + intros j Hj. cbn [listeners].
      replace (first + 1 + j) with (first + (j + 1)) by ring.
      apply Hfree. lia.
Qed.

(** *** emit *)

Variable World : Type.
Variable behaviour : Target -> EventType -> Event -> World
                     -> Reaction EventType Target * World.

#[local] Abbreviation dispatch' := (dispatch behaviour).
#[local] Abbreviation emit' := (emit behaviour).

(** The loop calls the elements of the vector from the front, each once,
    and stops behind the first call that throws. *)
Lemma dispatch_invoked ml k (e : Event) s (w : World) :
  exists rest, ml = map entry (invoked (dispatch' ml k e s w)) ++ rest /\
               (finished (dispatch' ml k e s w) = returned tt -> rest = []).
Proof.
  revert s w. induction ml as [|l ml IH]; intros s w.
  - exists []. split; reflexivity.
  - cbn [dispatch]. destruct (callback (snd l)) as [t|].
    + destruct (behaviour t k e w) as [r w'].
      destruct (raises r).
      * exists ml. split; [reflexivity|discriminate].
      * destruct (IH (run (reentrant r) s) w') as [rest [Hml Hfin]].
        exists rest. cbn. split; [f_equal; exact Hml|exact Hfin].
    + exists (l :: ml). split; [reflexivity|discriminate].
Qed.

Lemma dispatch_passes ml k (e : Event) s (w : World) :
  Forall (fun call => passed_type call = k /\ passed_event call = e)
         (invoked (dispatch' ml k e s w)).
Proof.
  revert s w. induction ml as [|l ml IH]; intros s w.
  - constructor.
  - cbn [dispatch]. destruct (callback (snd l)) as [t|]; [|constructor].
    destruct (behaviour t k e w) as [r w'].
    destruct (raises r); cbn.
    + repeat constructor.
    + constructor; [split; reflexivity|apply IH].
Qed.

(** Only a callback that throws ends the loop early, when every callback
    in the vector can be called. *)
Lemma dispatch_finished ml k (e : Event) s (w : World) :
  Forall callable ml ->
  Forall (fun call => raises (reaction call) = false)
         (invoked (dispatch' ml k e s w)) ->
  finished (dispatch' ml k e s w) = returned tt.
Proof.
  intros Hml. revert s w.
  induction Hml as [|l ml Hl _ IH]; intros s w; [reflexivity|].
  cbn [dispatch]. unfold callable in Hl.
  destruct (callback (snd l)) as [t|]; [|contradiction].
  destruct (behaviour t k e w) as [r w'].
  destruct (raises r) eqn:Hr; cbn.
  - intros Hall. inversion Hall as [|? ? Hhd _]; subst.
    cbn in Hhd. congruence.
  - intros Hall. inversion Hall; subst. apply IH. assumption.
Qed.

(** [emit] has no write of its own: the emitter it leaves behind is the
    one its callbacks made by calling the public functions. *)
Lemma dispatch_registry ml k (e : Event) s (w : World) :
  registry (dispatch' ml k e s w) = run (reentered (dispatch' ml k e s w)) s.
Proof.
  revert s w. induction ml as [|l ml IH]; intros s w; [reflexivity|].
  cbn [dispatch]. destruct (callback (snd l)) as [t|]; [|reflexivity].
  destruct (behaviour t k e w) as [r w'].
  destruct (raises r); unfold reentered;
    cbn [invoked registry flat_map reaction].
  - rewrite app_nil_r. reflexivity.
  - rewrite run_app. apply IH.
Qed.

Lemma emit_invoked_stored k (e : Event) s (w : World) :
  incl (map entry (invoked (emit' k e s w))) (listeners s).
Proof.
  unfold emit.
  destruct (dispatch_invoked (equal_range k (listeners s)) k e s w)
    as [rest [Hml _]].
  intros x Hx. apply (equal_range_incl k). rewrite Hml.
  apply in_or_app. left. exact Hx.
Qed.

Lemma returned_ids_app cs cs' s :
  returned_ids (cs ++ cs') s = returned_ids cs s ++ returned_ids cs' (run cs s).
Proof.
  revert s. induction cs as [|c cs IH]; intros s; [reflexivity|].
  cbn [app returned_ids].
  change (run (c :: cs) s) with (run cs (step s c)).
  destruct (fst (perform c s)) as [[i|]|x]; rewrite IH; reflexivity.
Qed.

(** *** The claims *)

(** C1 (amended).  For every state an emitter can be in, event type [k]
    and event [e]: [emit(k, e)] calls, front to back, an initial stretch of
    the listeners registered for [k] when it is called, each once, with
    [k] and [e] as arguments, and no listener of another event type.  When
    [emit] returns, the stretch is all of them; and [emit] returns unless
    one of the callbacks it called threw. *)
Theorem emit_invokes_registered cs k (e : Event) (w : World) :
  let s := state_after cs in
  let r := emit' k e s w in
  (exists rest, with_key k (listeners s) = map entry (invoked r) ++ rest) /\
  (finished r = returned tt ->
     map entry (invoked r) = with_key k (listeners s)) /\
  (Forall (fun call => raises (reaction call) = false) (invoked r) ->
     finished r = returned tt) /\
  Forall (fun call => equivalent k (fst (entry call)) = true /\
                      passed_type call = k /\ passed_event call = e)
         (invoked r).
Proof.
  intros s r. subst r. unfold emit.
  pose proof (state_after_ordered cs) as Hord. fold s in Hord.
  rewrite (equal_range_with_key k _ Hord).
  destruct (dispatch_invoked (with_key k (listeners s)) k e s w)
    as [rest [Hml Hfin]].
  repeat split.
  - exists rest. exact Hml.
  - intros Hr. rewrite (Hfin Hr), app_nil_r in Hml. symmetry. exact Hml.
  - apply dispatch_finished. apply Forall_forall. intros x Hx.
    apply filter_In in Hx. destruct Hx as [Hx _].
    assert (Hc : Forall callable (listeners s))
      by (apply run_callable; constructor).
    rewrite Forall_forall in Hc. apply Hc, Hx.
  - pose proof (dispatch_passes (with_key k (listeners s)) k e s w) as Hp.
    rewrite Forall_forall in *. intros call Hcall.
    split; [|apply Hp, Hcall].
    assert (Hin : In (entry call) (with_key k (listeners s))).
    { rewrite Hml. apply in_or_app. left. apply in_map, Hcall. }
    apply filter_In in Hin. apply Hin.
Qed.

(** C2 (amended).  For every sequence of [addListener] and
    [removeListener] calls in which at most [UINT_MAX + 1] registrations
    succeed, the identifiers returned are 0, 1, 2, ... in the order of the
    calls, so no two of them are equal, removals in between or not; and a
    registration that is not the [UINT_MAX + 1]-th leaves the counter one
    higher than it found it. *)
Theorem addListener_ids_distinct_until_wrap cs :
  Z.of_nat (registrations cs) <= UINT_MAX + 1 ->
  returned_ids cs init = map Z.of_nat (seq 0 (registrations cs)) /\
  NoDup (returned_ids cs init) /\
  (forall before c after,
     cs = before ++ c :: after -> registers c = true ->
     Z.of_nat (registrations (before ++ [c])) <= UINT_MAX ->
     lastListenerID (state_after (before ++ [c])) =
     lastListenerID (state_after before) + 1).
Proof.
  intros Hn.
  assert (Hids : returned_ids cs init
                 = map Z.of_nat (seq 0 (registrations cs))).
  { rewrite returned_ids_counter. apply map_ext_in. intros i Hi.
    apply in_seq in Hi. cbn [lastListenerID init].
    apply to_unsigned_small. lia. }
  split; [exact Hids|]. split.
  - rewrite Hids. apply Finite.Injective_map_NoDup.
    + intros i j. apply Nat2Z.inj.
    + apply seq_NoDup.
  - intros before c after _ Hc Hlt.
    rewrite !state_after_counter.
    rewrite registrations_app in *. unfold registrations at 2 in Hlt.
    unfold registrations at 2. cbn [filter] in *. rewrite Hc in *.
    cbn [length] in *.
    rewrite !to_unsigned_small by lia. lia.
Qed.

(** C4.  [addListener] with an empty callback throws [invalid_argument]
    and leaves the emitter as it was: the same listeners (so the same
    number of them) and the same counter.  No identifier is used up: the
    rest of a history gets the identifiers, and reaches the state, it
    would have without the rejected call. *)
Theorem addListener_rejects_empty_callback k s :
  fst (addListener k None s) = thrown invalid_argument /\
  snd (addListener k None s) = s /\
  length (listeners (snd (addListener k None s))) = length (listeners s) /\
  lastListenerID (snd (addListener k None s)) = lastListenerID s /\
  (forall cs cs',
     returned_ids (cs ++ AddListener k None :: cs') init
     = returned_ids (cs ++ cs') init /\
     state_after (cs ++ AddListener k None :: cs') = state_after (cs ++ cs')).
Proof.
  rewrite addListener_empty. repeat split.
  - rewrite !returned_ids_app. reflexivity.
  - unfold state_after. rewrite !run_app. reflexivity.
Qed.

(** C5.  Let [removeListener(id0)] have returned.  Whatever calls follow,
    a listener with the identifier [id0] that an [emit] after them calls,
    for any event type, is one that [addListener] registered after the
    removal and handed [id0] anew; so when no later registration is handed
    [id0], no later [emit] calls a listener with that identifier. *)
Theorem removed_listener_not_invoked s id0 cs k (e : Event) (w : World) :
  let s1 := snd (removeListener id0 s) in
  let r := emit' k e (run cs s1) w in
  Forall (fun call =>
            unsigned_id (entry call) = id0 ->
            In (fst (entry call), callback (snd (entry call)))
               (registered_as id0 cs s1))
         (invoked r) /\
  (~ In id0 (returned_ids cs s1) ->
   Forall (fun call => unsigned_id (entry call) <> id0) (invoked r)).
Proof.
  intros s1 r.
  assert (Hlater : Forall (fun call =>
            unsigned_id (entry call) = id0 ->
            In (fst (entry call), callback (snd (entry call)))
               (registered_as id0 cs s1)) (invoked r)).
  { apply Forall_forall. intros call Hcall Hid.
    assert (Hin : In (entry call) (listeners (run cs s1))).
    { apply (emit_invoked_stored k e _ w). apply in_map, Hcall. }
    apply run_stored_as in Hin. rewrite Hid in Hin.
    destruct Hin as [Hin|Hin]; [|exact Hin].
    pose proof (erase_matching_gone id0 (listeners s)) as Hgone.
    rewrite Forall_forall in Hgone. destruct (Hgone _ Hin Hid). }
  split; [exact Hlater|].
  intros Hfresh. rewrite Forall_forall in *. intros call Hcall Hid.
  apply Hfresh.
  exact (registered_as_returned _ _ _ _ (Hlater call Hcall Hid)).
Qed.

(** C6.  [removeListener] never throws; a second call with the same
    identifier changes nothing; and a call with an identifier that no
    [addListener] call has returned changes nothing. *)
Theorem removeListener_idempotent :
  (forall s id0, fst (removeListener id0 s) = returned tt) /\
  (forall s id0,
     removeListener id0 (snd (removeListener id0 s))
     = (returned tt, snd (removeListener id0 s))) /\
  (forall cs id0,
     ~ In id0 (returned_ids cs init) ->
     removeListener id0 (state_after cs) = (returned tt, state_after cs)).
Proof.
  split; [reflexivity|]. split.
  - intros s id0. unfold removeListener. cbn.
    rewrite erase_matching_idempotent. reflexivity.
  - intros cs id0 Hnew. unfold removeListener.
    rewrite erase_matching_none; [destruct (state_after cs); reflexivity|].
    apply Forall_forall. intros kv Hkv Hid.
    apply run_stored in Hkv. destruct Hkv as [[]|Hkv].
    apply Hnew. rewrite <- Hid. exact Hkv.
Qed.

(** C7 (amended).  In every state [removeListener] erases the elements
    whose identifier matches and leaves the others, and the counter, as
    they are; so it erases at most one element wherever the identifiers in
    the container are distinct.  They are distinct in every state reached
    by a history with at most [UINT_MAX + 1] successful registrations,
    where [removeListener] therefore erases at most one element. *)
Theorem removeListener_erases_at_most_one :
  (forall (s : Emitter) id0,
     let s' := snd (removeListener id0 s) in
     listeners s'
     = filter (fun kv => negb (has_id id0 (snd kv))) (listeners s) /\
     lastListenerID s' = lastListenerID s /\
     (NoDup (stored_ids s) ->
      (length (listeners s) <= length (listeners s') + 1)%nat)) /\
  (forall cs id0,
     Z.of_nat (registrations cs) <= UINT_MAX + 1 ->
     let s := state_after cs in
     let s' := snd (removeListener id0 s) in
     NoDup (stored_ids s) /\
     (length (listeners s) <= length (listeners s') + 1)%nat).
Proof.
  split.
  - intros s id0 s'. split; [apply erase_matching_filter|].
    split; [reflexivity|]. apply erase_matching_length.
  - intros cs id0 Hn s s'.
    destruct (state_after_stored_ids cs Hn) as [_ Hnd].
    split; [exact Hnd|]. apply erase_matching_length, Hnd.
Qed.

(** C8 (amended).  [emit] writes neither the container nor the counter
    itself.  The block that holds the mutex only reads: it leaves the
    emitter as it found it.  The emitter [emit] leaves behind is the one at
    the time of the call after the calls of [addListener] and
    [removeListener] that the invoked callbacks made, so it is the same
    emitter when they made none.  Every callback is passed the event
    [emit] was given. *)
Theorem emit_leaves_writing_to_callbacks s k (e : Event) (w : World) :
  let r := emit' k e s w in
  object (run_schedule [0; 0; 0]%nat (start s [emit_76 k])) = s /\
  registry r = run (reentered r) s /\
  (reentered r = [] -> registry r = s) /\
  Forall (fun call => passed_event call = e) (invoked r).
Proof.
  intros r. split; [reflexivity|].
  assert (Hr : registry r = run (reentered r) s)
    by apply dispatch_registry.
  split; [exact Hr|]. split.
  - intros Hnone. rewrite Hr, Hnone. reflexivity.
  - pose proof (dispatch_passes (equal_range k (listeners s)) k e s w) as Hp.
    eapply Forall_impl; [|exact Hp]. intros call Hcall. apply Hcall.
Qed.


(** C10 (amended).  The counter starts at 0.  In every state reached by a
    history with at most [UINT_MAX] successful registrations the counter
    is the number of those registrations, every identifier in the
    container is below the counter, and the identifiers in the container
    are distinct.  A successful [addListener] returns the counter's value
    and, unless that value is [UINT_MAX], leaves the counter one higher.
    [removeListener] and [emit] add no registration of their own: the
    state after [emit] is the state after the history extended by the
    calls its callbacks made. *)
Theorem stored_ids_below_counter cs :
  Z.of_nat (registrations cs) <= UINT_MAX ->
  let s := state_after cs in
  lastListenerID (init (EventType := EventType) (Target := Target)) = 0 /\
  lastListenerID s = Z.of_nat (registrations cs) /\
  Forall (fun kv => 0 <= unsigned_id kv < lastListenerID s) (listeners s) /\
  NoDup (stored_ids s) /\
  (forall k t,
     fst (addListener k (Some t) s) = returned (lastListenerID s) /\
     (lastListenerID s < UINT_MAX ->
      lastListenerID (snd (addListener k (Some t) s))
      = lastListenerID s + 1)) /\
  (forall id0,
     registrations (cs ++ [RemoveListener id0]) = registrations cs) /\
  (forall k (e : Event) (w : World),
     registry (emit' k e s w) = state_after (cs ++ reentered (emit' k e s w))).
Proof.
  intros Hn s.
  assert (Hc : lastListenerID s = Z.of_nat (registrations cs)).
  { unfold s. rewrite state_after_counter. apply to_unsigned_small. lia. }
  destruct (state_after_stored_ids cs) as [Hb Hnd]; [lia|].
  split; [reflexivity|]. split; [exact Hc|]. split; [|split; [exact Hnd|]].
  - rewrite Hc. exact Hb.
  - split; [|split].
    + intros k t. rewrite addListener_target. cbn [fst snd lastListenerID].
      split.
      * apply f_equal. apply to_unsigned_small. lia.
      * intros Hlt. apply to_unsigned_small. lia.
    + intros id0. rewrite registrations_app. cbn. lia.
    + intros k e w. unfold emit. rewrite dispatch_registry.
      unfold state_after. rewrite run_app. reflexivity.
Qed.

(** *** Further properties of the member functions *)

(** The loop ends in one of two ways: it has called every element, or the
    callback it called last threw and the ones before it did not. *)
Lemma dispatch_ends ml k (e : Event) s (w : World) :
  Forall callable ml ->
  let r := dispatch' ml k e s w in
  (finished r = returned tt /\
   Forall (fun call => raises (reaction call) = false) (invoked r)) \/
  (finished r = thrown callback_exception /\
   exists before call,
     invoked r = before ++ [call] /\
     raises (reaction call) = true /\
     Forall (fun c => raises (reaction c) = false) before).
Proof.
  intros Hml. revert s w.
  induction Hml as [|l ml Hl _ IH]; intros s w.
  - left. split; [reflexivity|constructor].
  - cbn [dispatch]. unfold callable in Hl.
    destruct (callback (snd l)) as [t|]; [|contradiction].
    destruct (behaviour t k e w) as [r w'].
    destruct (raises r) eqn:Hr; cbn zeta.
    + right. split; [reflexivity|]. eexists [], _. cbn.
      split; [reflexivity|]. split; [exact Hr|constructor].
    + destruct (IH (run (reentrant r) s) w')
        as [[Hfin Hall]|[Hfin [before [call [Hinv [Hcall Hbefore]]]]]].
      * left. cbn. split; [exact Hfin|]. constructor; [exact Hr|exact Hall].
      * right. cbn. split; [exact Hfin|].
        eexists (_ :: before), call. rewrite Hinv.
        split; [reflexivity|]. split; [exact Hcall|].
        constructor; [exact Hr|exact Hbefore].
Qed.

(** X1.  An event type nobody listens to: [emit] calls nothing, returns,
    and leaves the emitter and the rest of the program as they are. *)
Theorem emit_without_listeners cs k (e : Event) (w : World) :
  with_key k (listeners (state_after cs)) = [] ->
  let r := emit' k e (state_after cs) w in
  invoked r = [] /\ finished r = returned tt /\
  registry r = state_after cs /\ world r = w.
Proof.
  intros Hnone r. subst r. unfold emit.
  rewrite (equal_range_with_key k _ (state_after_ordered cs)), Hnone.
  repeat split.
Qed.

(** X2.  Registering a listener and removing it under the identifier that
    [addListener] returned takes the new listener out again, whatever the
    counter's value (also above [INT_MAX], where the stored [int] is
    negative): the container is the old one without the elements of that
    identifier.  In a state reached by at most [UINT_MAX] successful
    registrations no old element has that identifier, and the container is
    the old one, element for element; the counter has moved on. *)
Theorem addListener_then_removeListener cs k (t : Target) :
  Z.of_nat (registrations cs) <= UINT_MAX ->
  let s := state_after cs in
  let i := to_unsigned (lastListenerID s) in
  let s' := run [AddListener k (Some t); RemoveListener i] s in
  fst (addListener k (Some t) s) = returned i /\
  (forall s0 : Emitter,
     listeners (run [AddListener k (Some t);
                     RemoveListener (to_unsigned (lastListenerID s0))] s0)
     = erase_matching (to_unsigned (lastListenerID s0)) (listeners s0)) /\
  listeners s' = listeners s /\
  lastListenerID s' = to_unsigned (lastListenerID s + 1).
Proof.
  intros Hn s i s'.
  assert (Hgen : forall s0 : Emitter,
     listeners (run [AddListener k (Some t);
                     RemoveListener (to_unsigned (lastListenerID s0))] s0)
     = erase_matching (to_unsigned (lastListenerID s0)) (listeners s0)).
  { intros s0. change (run [?a; ?b] s0) with (step (step s0 a) b).
    rewrite step_add, step_remove. cbn [listeners].
    apply erase_matching_emplace. unfold has_id. cbn [id].
    rewrite to_unsigned_to_int. apply Z.eqb_refl. }
  split; [rewrite addListener_target; reflexivity|].
  split; [exact Hgen|]. split.
  - unfold s', i. rewrite Hgen. apply erase_matching_none.
    destruct (state_after_stored_ids cs) as [Hb _]; [lia|].
    fold s in Hb. unfold s at 1. rewrite state_after_counter.
    rewrite to_unsigned_idempotent, to_unsigned_small by lia.
    eapply Forall_impl; [|exact Hb]. cbv beta. intros kv Hkv. lia.
  - unfold s'. change (run [?a; ?b] s) with (step (step s a) b).
    rewrite step_add. reflexivity.
Qed.

(** X3.  A new listener is called after the ones already registered for
    its event type, and the listeners of every other event type are the
    same as before: for every key, the elements [emit] finds under it are
    the old ones, then the new one if the key is equivalent to its event
    type.  The container has one element more. *)
Theorem addListener_registers_last cs k (t : Target) k' :
  let s := state_after cs in
  let s' := snd (addListener k (Some t) s) in
  let listener := {| id := to_int (lastListenerID s); callback := Some t |} in
  equal_range k' (listeners s') =
  equal_range k' (listeners s)
    ++ (if equivalent k' k then [(k, listener)] else []) /\
  length (listeners s') = S (length (listeners s)).
Proof.
  intros s s' listener. unfold s'. rewrite addListener_target. cbn [snd listeners].
  pose proof (state_after_ordered cs) as Hord. fold s in Hord.
  rewrite !equal_range_with_key
    by (try apply ordered_emplace; exact Hord).
  rewrite with_key_emplace by exact Hord.
  split; [|apply length_emplace].
  rewrite with_key_app, with_key_cons. cbn [fst with_key filter].
  destruct (equivalent k' k); reflexivity.
Qed.

(** X4.  Two removals can be made in either order. *)
Theorem removeListener_commutes (s : Emitter) a b :
  run [RemoveListener a; RemoveListener b] s
  = run [RemoveListener b; RemoveListener a] s.
Proof.
  change (run [?x; ?y] s) with (step (step s x) y).
  rewrite !step_remove. cbn [listeners lastListenerID]. f_equal.
  rewrite !erase_matching_filter.
  induction (listeners s) as [|kv m IH]; [reflexivity|]. cbn [filter].
  destruct (has_id a (snd kv)) eqn:Ha, (has_id b (snd kv)) eqn:Hb;
    cbn [negb filter]; rewrite ?Ha, ?Hb; cbn [negb]; rewrite IH; reflexivity.
Qed.

(** X5.  Because [addListener] refuses an empty callback, [emit] never
    calls an empty [std::function]: in every state an emitter can be in,
    [emit] either returns, having called callbacks that all returned, or
    ends with what the callback it called last threw, the callbacks before
    that one having returned. *)
Theorem emit_throws_only_what_a_callback_threw cs k (e : Event) (w : World) :
  let r := emit' k e (state_after cs) w in
  finished r <> thrown bad_function_call /\
  ((finished r = returned tt /\
    Forall (fun call => raises (reaction call) = false) (invoked r)) \/
   (finished r = thrown callback_exception /\
    exists before call,
      invoked r = before ++ [call] /\
      raises (reaction call) = true /\
      Forall (fun c => raises (reaction c) = false) before)).
Proof.
  intros r.
  assert (Hends := dispatch_ends
            (equal_range k (listeners (state_after cs))) k e
            (state_after cs) w).
  cbv zeta in Hends. fold (emit' k e (state_after cs) w) in Hends.
  fold r in Hends.
  assert (Hcallable :
            Forall callable (equal_range k (listeners (state_after cs)))).
  { apply Forall_forall. intros x Hx. apply equal_range_incl in Hx.
    assert (Hc : Forall callable (listeners (state_after cs)))
      by (apply run_callable; constructor).
    rewrite Forall_forall in Hc. apply Hc, Hx. }
  specialize (Hends Hcallable). split; [|exact Hends].
  destruct Hends as [[Hfin _]|[Hfin _]]; rewrite Hfin; discriminate.
Qed.

(** X6.  What [removeListener] does to the listeners [emit] finds for an
    event type: the ones with the identifier are gone, the others are
    found as before, in the same order. *)
Theorem removeListener_keeps_dispatch_order cs id0 k :
  let s := state_after cs in
  equal_range k (listeners (snd (removeListener id0 s))) =
  filter (fun kv => negb (has_id id0 (snd kv))) (equal_range k (listeners s)).
Proof.
  intros s. pose proof (state_after_ordered cs) as Hord. fold s in Hord.
  cbn [removeListener snd listeners]. rewrite erase_matching_filter.
  rewrite !equal_range_with_key
    by (try apply ordered_filter; exact Hord).
  apply with_key_filter.
Qed.
End EventEmitterFacts.

(** ** Threads *)

Section ThreadFacts.
Variables EventType Target : Type.
Context `{Comparable EventType}.

#[local] Abbreviation Machine' := (Machine EventType Target).
#[local] Abbreviation Frame' := (Frame EventType Target).
Implicit Types (m : Machine') (f : Frame') (t : nat).

(** A thread that runs its call with no other thread in between does what
    the sequential function does. *)
Lemma addListener_alone (s : EventEmitter EventType Target) k cb :
  let m := run_schedule [0; 0; 0; 0; 0; 0]%nat
                        (start s [addListener_31 k cb]) in
  object m = snd (addListener k cb s) /\
  frames m = [done match fst (addListener k cb s) with
                   | returned i => returned (listener_id i)
                   | thrown x => thrown x
                   end] /\
  listenersMutex m = None.
Proof. destruct cb; repeat split. Qed.

Lemma removeListener_alone (s : EventEmitter EventType Target) id0 :
  let m := run_schedule [0; 0; 0]%nat (start s [removeListener_49 id0]) in
  object m = snd (removeListener id0 s) /\
  frames m = [done (returned nothing)] /\
  listenersMutex m = None.
Proof. repeat split. Qed.

Lemma nth_error_set_frame t t' f (fs : list Frame') :
  nth_error (set_frame t f fs) t' =
  if Nat.eqb t' t
  then match nth_error fs t with Some _ => Some f | None => None end
  else nth_error fs t'.
Proof.
  revert t t'. induction fs as [|g fs IH]; intros t t'.
  - destruct t, t'; cbn; try reflexivity.
    destruct (Nat.eqb t' t); reflexivity.
  - destruct t as [|t], t' as [|t']; try reflexivity. cbn. apply IH.
Qed.

Lemma holds_free t m : listenersMutex m = None -> holds t m = false.
Proof. unfold holds. intros ->. reflexivity. Qed.

Lemma holds_owner t t' m :
  listenersMutex m = Some t -> holds t' m = Nat.eqb t t'.
Proof. unfold holds. intros ->. reflexivity. Qed.

Lemma moved_keeps_scope t f g m m' :
  lock_follows_scope m ->
  nth_error (frames m) t = Some f ->
  frames m' = set_frame t g (frames m) ->
  listenersMutex m' = listenersMutex m ->
  in_guard_scope g = in_guard_scope f ->
  lock_follows_scope m'.
Proof.
  intros Hinv Hf Hframes Hmutex Hg t' f' Hf'.
  rewrite Hframes, nth_error_set_frame in Hf'.
  assert (Hholds : holds t' m' = holds t' m)
    by (unfold holds; rewrite Hmutex; reflexivity).
  rewrite Hholds. destruct (Nat.eqb_spec t' t) as [->|Hne].
  - rewrite Hf in Hf'. injection Hf' as <-. rewrite Hg. apply Hinv, Hf.
  - apply Hinv, Hf'.
Qed.

Lemma acquire_keeps_scope t f g m :
  lock_follows_scope m ->
  nth_error (frames m) t = Some f ->
  in_guard_scope f = false -> in_guard_scope g = true ->
  lock_follows_scope (acquire t g m).
Proof.
  intros Hinv Hf Hout Hin. unfold acquire.
  destruct (listenersMutex m) as [owner|] eqn:Hmutex; [exact Hinv|].
  intros t' f' Hf'. cbn in Hf'. rewrite nth_error_set_frame in Hf'.
  unfold holds. cbn. destruct (Nat.eqb_spec t' t) as [->|Hne].
  - rewrite Hf in Hf'. injection Hf' as <-.
    rewrite Nat.eqb_refl, Hin. reflexivity.
  - rewrite <- (Hinv _ _ Hf'), (holds_free _ _ Hmutex).
    apply Nat.eqb_neq. congruence.
Qed.

Lemma release_keeps_scope t f g m :
  lock_follows_scope m ->
  nth_error (frames m) t = Some f ->
  in_guard_scope f = true -> in_guard_scope g = false ->
  lock_follows_scope (release t g m).
Proof.
  intros Hinv Hf Hin Hout t' f' Hf'. cbn in Hf'.
  rewrite nth_error_set_frame in Hf'. unfold holds. cbn.
  assert (Hmutex : listenersMutex m = Some t).
  { pose proof (Hinv _ _ Hf) as Ht. rewrite Hin in Ht. unfold holds in Ht.
    destruct (listenersMutex m) as [owner|]; [|discriminate].
    apply Nat.eqb_eq in Ht. congruence. }
  destruct (Nat.eqb_spec t' t) as [->|Hne].
  - rewrite Hf in Hf'. injection Hf' as <-. symmetry. exact Hout.
  - rewrite <- (Hinv _ _ Hf'), (holds_owner _ _ _ Hmutex).
    symmetry. apply Nat.eqb_neq. congruence.
Qed.

(** In every schedule, every access to [listeners] is made by a thread
    that holds the mutex, and every access to [lastListenerID] by a thread
    that does not. *)
Lemma step_thread_discipline m t :
  lock_follows_scope m ->
  Forall (fun a => holding_lock a = guarded_in_header (access a)) (touches m) ->
  lock_follows_scope (step_thread m t) /\
  Forall (fun a => holding_lock a = guarded_in_header (access a))
         (touches (step_thread m t)).
Proof.
  intros Hinv Hlog. unfold step_thread.
  destruct (nth_error (frames m) t) as [f|] eqn:Hf; [|split; assumption].
  pose proof (Hinv _ _ Hf) as Hholds.
  destruct f as [k cb|k cb|k cb old|k cb lid|k cb lid|lid
                |id0|id0| |k|k|ml|result];
    cbn [in_guard_scope] in Hholds.
  - destruct cb; (split; [|exact Hlog]);
      eapply (moved_keeps_scope _ _ _ _ _ Hinv Hf); reflexivity.
  - split; [|constructor; [exact Hholds|exact Hlog]].
    eapply (moved_keeps_scope _ _ _ _ _ Hinv Hf); reflexivity.
  - split; [|constructor; [exact Hholds|exact Hlog]].
    eapply (moved_keeps_scope _ _ _ _ _ Hinv Hf); reflexivity.
  - split; [|unfold acquire; destruct (listenersMutex m); exact Hlog].
    apply (acquire_keeps_scope _ _ _ _ Hinv Hf); reflexivity.
  - split; [|constructor; [exact Hholds|exact Hlog]].
    eapply (moved_keeps_scope _ _ _ _ _ Hinv Hf); reflexivity.
  - split; [|exact Hlog].
    apply (release_keeps_scope _ _ _ _ Hinv Hf); reflexivity.
  - split; [|unfold acquire; destruct (listenersMutex m); exact Hlog].
    apply (acquire_keeps_scope _ _ _ _ Hinv Hf); reflexivity.
  - split; [|constructor; [exact Hholds|exact Hlog]].
    eapply (moved_keeps_scope _ _ _ _ _ Hinv Hf); reflexivity.
  - split; [|exact Hlog].
    apply (release_keeps_scope _ _ _ _ Hinv Hf); reflexivity.
  - split; [|unfold acquire; destruct (listenersMutex m); exact Hlog].
    apply (acquire_keeps_scope _ _ _ _ Hinv Hf); reflexivity.
  - split; [|constructor; [exact Hholds|exact Hlog]].
    eapply (moved_keeps_scope _ _ _ _ _ Hinv Hf); reflexivity.
  - split; [|exact Hlog].
    apply (release_keeps_scope _ _ _ _ Hinv Hf); reflexivity.
  - split; assumption.
Qed.

Lemma run_schedule_discipline schedule m :
  lock_follows_scope m ->
  Forall (fun a => holding_lock a = guarded_in_header (access a)) (touches m) ->
  Forall (fun a => holding_lock a = guarded_in_header (access a))
         (touches (run_schedule schedule m)).
Proof.
  revert m. induction schedule as [|t schedule IH]; intros m Hinv Hlog.
  - exact Hlog.
  - destruct (step_thread_discipline m t Hinv Hlog) as [Hinv' Hlog'].
    exact (IH _ Hinv' Hlog').
Qed.

Lemma start_discipline (s : EventEmitter EventType Target) calls schedule :
  Forall (@entering EventType Target) calls ->
  Forall (fun a => holding_lock a = guarded_in_header (access a))
         (touches (run_schedule schedule (start s calls))).
Proof.
  intros Hcalls. apply run_schedule_discipline; [|constructor].
  intros t f Hf. cbn in Hf. apply nth_error_In in Hf.
  rewrite Forall_forall in Hcalls. specialize (Hcalls f Hf).
  destruct f; try contradiction; reflexivity.
Qed.

(** *** Exclusion *)

Lemma length_set_frame t f (fs : list Frame') :
  length (set_frame t f fs) = length fs.
Proof.
  revert t. induction fs as [|g fs IH]; intros [|t]; cbn; congruence.
Qed.

Lemma step_thread_owner m t :
  owner_is_thread m -> owner_is_thread (step_thread m t).
Proof.
  intros Ho. unfold step_thread.
  destruct (nth_error (frames m) t) as [f|] eqn:Hf; [|exact Ho].
  assert (Ht : (t < length (frames m))%nat)
    by (apply nth_error_Some; congruence).
  unfold owner_is_thread in *.
  destruct f as [k cb|k cb|k cb old|k cb lid|k cb lid|lid
                |id0|id0| |k|k|ml|result];
    try destruct cb;
    unfold goto, touch, release, acquire;
    try (destruct (listenersMutex m) eqn:Hm);
    cbn [listenersMutex frames]; rewrite ?Hm, ?length_set_frame;
    first [exact Ho | exact Ht | exact I].
Qed.

(** What every schedule keeps. *)
Lemma run_schedule_keeps schedule m :
  lock_follows_scope m ->
  Forall (fun a => holding_lock a = guarded_in_header (access a)) (touches m) ->
  owner_is_thread m ->
  lock_follows_scope (run_schedule schedule m) /\
  owner_is_thread (run_schedule schedule m).
Proof.
  revert m. induction schedule as [|t schedule IH]; intros m Hinv Hlog Ho.
  - split; assumption.
  - destruct (step_thread_discipline m t Hinv Hlog) as [Hinv' Hlog'].
    exact (IH _ Hinv' Hlog' (step_thread_owner m t Ho)).
Qed.

Lemma start_keeps (s : EventEmitter EventType Target) calls schedule :
  Forall (@entering EventType Target) calls ->
  lock_follows_scope (run_schedule schedule (start s calls)) /\
  owner_is_thread (run_schedule schedule (start s calls)) /\
  Forall (fun a => holding_lock a = guarded_in_header (access a))
         (touches (run_schedule schedule (start s calls))).
Proof.
  intros Hcalls.
  assert (Hinv : lock_follows_scope (start s calls)).
  { intros t f Hf. cbn in Hf. apply nth_error_In in Hf.
    rewrite Forall_forall in Hcalls. specialize (Hcalls f Hf).
    destruct f; try contradiction; reflexivity. }
  destruct (run_schedule_keeps schedule (start s calls) Hinv) as [H1 H2];
    [constructor|exact I|].
  split; [exact H1|]. split; [exact H2|].
  apply run_schedule_discipline; [exact Hinv|constructor].
Qed.

Lemma run_schedule_app schedule rest m :
  run_schedule (schedule ++ rest) m = run_schedule rest (run_schedule schedule m).
Proof. apply fold_left_app. Qed.

(** X7.  [std::lock_guard] does what it is there for: however the threads
    are scheduled, no two of them are inside a guarded block ([addListener]
    lines 37-41, [removeListener] lines 49-61, [emit] lines 76-80) at the
    same time. *)
Theorem guarded_blocks_exclude_each_other
    (s : EventEmitter EventType Target) calls schedule :
  Forall (@entering EventType Target) calls ->
  let m := run_schedule schedule (start s calls) in
  forall t t' f f',
    nth_error (frames m) t = Some f ->
    nth_error (frames m) t' = Some f' ->
    in_guard_scope f = true -> in_guard_scope f' = true ->
    t = t'.
Proof.
  intros Hcalls m t t' f f' Hf Hf' Hs Hs'.
  destruct (start_keeps s calls schedule Hcalls) as [Hinv _]. fold m in Hinv.
  pose proof (Hinv _ _ Hf) as Ht. pose proof (Hinv _ _ Hf') as Ht'.
  rewrite Hs in Ht. rewrite Hs' in Ht'. unfold holds in Ht, Ht'.
  destruct (listenersMutex m) as [o|]; [|discriminate].
  apply Nat.eqb_eq in Ht, Ht'. congruence.
Qed.

(** *** Calls that do not overlap *)

Lemma nth_error_middle (before : list Frame') f after :
  nth_error (before ++ f :: after) (length before) = Some f.
Proof. induction before as [|g before IH]; [reflexivity|exact IH]. Qed.

Lemma set_frame_middle (before : list Frame') f g after :
  set_frame (length before) g (before ++ f :: after) = before ++ g :: after.
Proof.
  induction before as [|h before IH]; [reflexivity|].
  cbn. rewrite IH. reflexivity.
Qed.

(** A call that runs from its first line to its end while no other thread
    takes a step does to the emitter what the sequential function does,
    and ends with what that function returns or throws, whatever the other
    threads have done before. *)
Lemma call_uninterrupted c (before after : list Frame')
      (o : EventEmitter EventType Target) log :
  exists log',
    run_schedule (repeat (length before) 6)
      {| listenersMutex := None; object := o;
         frames := before ++ enter c :: after; touches := log |}
    = {| listenersMutex := None; object := step o c;
         frames := before ++ done (value_of EventType Target (fst (perform c o))) :: after;
         touches := log' |}.
Proof.
  assert (Hcons : forall t schedule (m : Machine'),
            run_schedule (t :: schedule) m
            = run_schedule schedule (step_thread m t)) by reflexivity.
  destruct c as [k [t|]|id0]; eexists;
    cbn [repeat enter];
    repeat (rewrite Hcons;
            unfold step_thread;
            cbn [frames listenersMutex object touches];
            rewrite nth_error_middle;
            unfold goto, touch, acquire, release;
            cbn [frames listenersMutex object touches];
            rewrite ?set_frame_middle);
    reflexivity.
Qed.

Lemma calls_one_by_one_from cs : forall (before : list Frame')
      (o : EventEmitter EventType Target) log,
  let m := run_schedule (one_by_one (length before) (length cs))
             {| listenersMutex := None; object := o;
                frames := before ++ map (@enter EventType Target) cs;
                touches := log |} in
  object m = run cs o /\
  frames m = before ++ map done (outcomes cs o) /\
  listenersMutex m = None.
Proof.
  induction cs as [|c cs IH]; intros before o log.
  - repeat split.
  - cbv zeta. unfold one_by_one. cbn [length seq flat_map map].
    rewrite run_schedule_app.
    destruct (call_uninterrupted c before (map (@enter EventType Target) cs)
                o log) as [log' ->].
    specialize (IH (before ++ [done (value_of EventType Target (fst (perform c o)))])
                  (step o c) log').
    cbv zeta in IH. rewrite length_app, Nat.add_1_r in IH.
    rewrite <- !app_assoc in IH. exact IH.
Qed.

(** X9.  When the calls of the threads do not overlap -- each runs to its
    end before the next thread starts -- the emitter ends as after the same
    calls of the sequential functions, every call ends with what the
    sequential function returns or throws, and the mutex is free. *)
Theorem calls_one_by_one cs (s : EventEmitter EventType Target) :
  let m := run_schedule (one_by_one 0 (length cs))
                        (start s (map (@enter EventType Target) cs)) in
  object m = run cs s /\
  frames m = map done (outcomes cs s) /\
  listenersMutex m = None.
Proof. exact (calls_one_by_one_from cs [] s []). Qed.
End ThreadFacts.

(** ** The small program *)

Lemma calm_state :
  state_after Example.calm =
  {| listeners :=
       [(3%nat, {| id := 1; callback := Some Example.Failing |});
        (7%nat, {| id := 2; callback := Some Example.Quiet |});
        (7%nat, {| id := 3; callback := Some Example.Quiet |})];
     lastListenerID := 4 |}.
Proof. reflexivity. Qed.

Lemma stormy_state :
  state_after Example.stormy =
  {| listeners :=
       [(7%nat, {| id := 0; callback := Some Example.Failing |});
        (7%nat, {| id := 1; callback := Some Example.Quiet |})];
     lastListenerID := 2 |}.
Proof. reflexivity. Qed.

(** Whatever the number [N] of listeners that come and go behind the first
    one: if it is [UINT_MAX], the counter is back at 0 in the end and the
    first listener is still there. *)
Lemma churned_state (N : nat) :
  Z.of_nat N = UINT_MAX ->
  state_after (AddListener 7%nat (Some Example.Quiet)
                 :: churn 7%nat Example.Quiet 1 N) =
  {| listeners := [(7%nat, {| id := 0; callback := Some Example.Quiet |})];
     lastListenerID := 0 |}.
Proof.
  intros HN. unfold state_after.
  change (run (?c :: ?cs) init) with (run cs (step init c)).
  change (step init (AddListener 7%nat (Some Example.Quiet)))
    with {| listeners :=
              [(7%nat, {| id := 0; callback := Some Example.Quiet |})];
            lastListenerID := 1 |}.
  rewrite run_churn.
  - rewrite HN. reflexivity.
  - reflexivity.
  - intros j Hj. repeat constructor.
    rewrite (to_unsigned_small (1 + j)) by lia.
    change (unsigned_id _) with 0. lia.
Qed.

Lemma returned_ids_snoc (cs : list (Call nat Example.Handler)) c :
  returned_ids (cs ++ [c]) init
  = returned_ids cs init ++ returned_ids [c] (state_after cs).
Proof. apply returned_ids_app. Qed.

Lemma first_returned_id (cs : list (Call nat Example.Handler)) :
  exists ids,
    returned_ids (AddListener 7%nat (Some Example.Quiet) :: cs) init = 0 :: ids.
Proof. eexists. reflexivity. Qed.

Lemma wrapped_state :
  state_after Example.wrapped =
  {| listeners := [(7%nat, {| id := 0; callback := Some Example.Quiet |})];
     lastListenerID := 0 |}.
Proof. apply churned_state. apply Z2Nat.id. discriminate. Qed.

Lemma wrapped_again_state :
  state_after Example.wrapped_again =
  {| listeners :=
       [(7%nat, {| id := 0; callback := Some Example.Quiet |});
        (7%nat, {| id := 0; callback := Some Example.Failing |})];
     lastListenerID := 1 |}.
Proof.
  unfold Example.wrapped_again. rewrite state_after_snoc, wrapped_state.
  reflexivity.
Qed.

(** [wrapped] holds [UINT_MAX + 1] registrations, [wrapped_again] one more
    than the counter can count. *)
Lemma wrapped_registrations :
  Z.of_nat (registrations Example.wrapped) = UINT_MAX + 1 /\
  Z.of_nat (registrations Example.wrapped_again) = UINT_MAX + 2.
Proof.
  assert (Hcons : forall k t (cs : list (Call nat Example.Handler)),
            registrations (AddListener k (Some t) :: cs)
            = S (registrations cs)) by reflexivity.
  assert (Hw : Z.of_nat (registrations Example.wrapped) = UINT_MAX + 1).
  { unfold Example.wrapped.
    rewrite Hcons, registrations_churn, Nat2Z.inj_succ, Z2Nat.id
      by discriminate.
    reflexivity. }
  split; [exact Hw|].
  unfold Example.wrapped_again.
  rewrite registrations_app, Nat2Z.inj_add, Hw. reflexivity.
Qed.

(** *** C1 *)

(** C1, as stated, fails: two listeners are registered for event type 7 and
    the callback of the first one throws; [emit(7, 42)] calls the first and
    not the second. *)
Lemma emit_stops_at_throwing_callback :
  let s := state_after Example.stormy in
  let r := Example.emit 7 42 s in
  length (with_key 7%nat (listeners s)) = 2%nat /\
  length (invoked r) = 1%nat /\
  map entry (invoked r) <> with_key 7%nat (listeners s).
Proof.
  cbv zeta. rewrite stormy_state. repeat split. discriminate.
Qed.

Lemma emit_invokes_registered_witness :
  let s := state_after Example.calm in
  let r := Example.emit 7 42 s in
  finished r = returned tt /\
  map entry (invoked r) = with_key 7%nat (listeners s).
Proof.
  cbv zeta.
  destruct (emit_invokes_registered nat nat Example.Handler unit
              Example.handler Example.calm 7%nat 42%nat tt)
    as [_ [Hall [Hret _]]].
  assert (Hfin : finished (Example.emit 7 42 (state_after Example.calm))
                 = returned tt).
  { apply Hret. repeat constructor. }
  split; [exact Hfin|exact (Hall Hfin)].
Defined.

(** *** C2 *)

(** C2, as stated, fails: in [wrapped_again] the first call and the last
    call of [addListener] both return 0. *)
Lemma wrapped_again_returns_an_id_twice :
  ~ NoDup (returned_ids Example.wrapped_again init).
Proof.
  unfold Example.wrapped_again.
  rewrite returned_ids_snoc, wrapped_state.
  change (returned_ids [_] _) with [0].
  unfold Example.wrapped.
  destruct (first_returned_id (churn 7%nat Example.Quiet 1 (Z.to_nat UINT_MAX)))
    as [ids ->].
  intros Hnd. inversion Hnd as [|? ? Hnotin _]; subst.
  apply Hnotin, in_or_app. right. left. reflexivity.
Qed.

Lemma addListener_ids_distinct_until_wrap_witness :
  Z.of_nat (registrations Example.calm) <= UINT_MAX + 1 /\
  returned_ids Example.calm init = [0; 1; 2; 3] /\
  NoDup (returned_ids Example.calm init).
Proof.
  assert (Hn : Z.of_nat (registrations Example.calm) <= UINT_MAX + 1)
    by discriminate.
  destruct (addListener_ids_distinct_until_wrap nat Example.Handler
              Example.calm Hn) as [Hids [Hnd _]].
  split; [exact Hn|]. split; [exact Hids|exact Hnd].
Defined.

(** *** C5 *)

Lemma removed_listener_not_invoked_witness :
  let s := snd (removeListener 2 (state_after Example.calm)) in
  let later := [AddListener 7%nat (Some Example.Quiet)] in
  ~ In 2 (returned_ids later s) /\
  Forall (fun call => unsigned_id (entry call) <> 2)
         (invoked (Example.emit 7 42 (run later s))).
Proof.
  cbv zeta.
  assert (Hfresh : ~ In 2 (returned_ids
                             [AddListener 7%nat (Some Example.Quiet)]
                             (snd (removeListener 2
                                     (state_after Example.calm))))).
  { intros [Heq|[]]. discriminate Heq. }
  split; [exact Hfresh|].
  exact (proj2 (removed_listener_not_invoked nat nat Example.Handler unit
                  Example.handler (state_after Example.calm) 2
                  [AddListener 7%nat (Some Example.Quiet)] 7%nat 42%nat tt)
           Hfresh).
Defined.

(** *** C6 *)

Lemma removeListener_idempotent_witness :
  ~ In 9 (returned_ids Example.calm init) /\
  removeListener 9 (state_after Example.calm)
  = (returned tt, state_after Example.calm).
Proof.
  assert (Hnew : ~ In 9 (returned_ids Example.calm init)).
  { intros [Heq|[Heq|[Heq|[Heq|[]]]]]; discriminate Heq. }
  split; [exact Hnew|].
  exact (proj2 (proj2 (removeListener_idempotent nat Example.Handler))
           Example.calm 9 Hnew).
Defined.

(** *** C7 *)

(** C7, as stated, fails: [wrapped_again] leaves two listeners with the
    identifier 0, and [removeListener(0)] erases both. *)
Lemma removeListener_erases_two :
  let s := state_after Example.wrapped_again in
  length (listeners s) = 2%nat /\
  length (listeners (snd (removeListener 0 s))) = 0%nat.
Proof.
  cbv zeta. rewrite wrapped_again_state. split; reflexivity.
Qed.

Lemma removeListener_erases_at_most_one_witness :
  let s := state_after Example.calm in
  let t := state_after Example.wrapped_again in
  Z.of_nat (registrations Example.calm) <= UINT_MAX + 1 /\
  (length (listeners s)
   <= length (listeners (snd (removeListener 2%Z s))) + 1)%nat /\
  listeners (snd (removeListener 0 t))
  = filter (fun kv => negb (has_id 0 (snd kv))) (listeners t).
Proof.
  cbv zeta.
  assert (Hn : Z.of_nat (registrations Example.calm) <= UINT_MAX + 1)
    by discriminate.
  split; [exact Hn|]. split.
  - exact (proj2 (proj2 (removeListener_erases_at_most_one nat
                           Example.Handler) Example.calm 2 Hn)).
  - exact (proj1 (proj1 (removeListener_erases_at_most_one nat
                           Example.Handler)
                    (state_after Example.wrapped_again) 0)).
Defined.

(** *** C8 *)

(** C8, as stated, fails: the callback of the one listener calls
    [removeListener] with its own identifier, and after [emit] has returned
    the container is empty. *)
Lemma emit_returns_with_emitter_changed :
  let s := state_after Example.one_shot in
  let r := Example.emit 7 42 s in
  finished r = returned tt /\
  length (listeners s) = 1%nat /\
  length (listeners (registry r)) = 0%nat /\
  registry r <> s.
Proof. cbv zeta. repeat split. discriminate. Qed.

Lemma emit_leaves_writing_to_callbacks_witness :
  let s := state_after Example.calm in
  reentered (Example.emit 7 42 s) = [] /\
  registry (Example.emit 7 42 s) = s.
Proof.
  cbv zeta.
  assert (Hnone : reentered (Example.emit 7 42 (state_after Example.calm))
                  = []) by reflexivity.
  split; [exact Hnone|].
  exact (proj1 (proj2 (proj2
           (emit_leaves_writing_to_callbacks nat nat Example.Handler unit
              Example.handler (state_after Example.calm) 7%nat 42%nat tt)))
           Hnone).
Defined.

(** *** C9 *)


(** *** C10 *)

(** C10, as stated, fails: after [wrapped] the counter is 0 and the
    container holds a listener whose identifier is 0. *)
Lemma stored_id_not_below_counter :
  let s := state_after Example.wrapped in
  lastListenerID s = 0 /\
  ~ Forall (fun kv => unsigned_id kv < lastListenerID s) (listeners s).
Proof.
  cbv zeta. rewrite wrapped_state. split; [reflexivity|].
  intros Hall. inversion Hall as [|? ? Hlt _]; subst.
  revert Hlt. discriminate.
Qed.

Lemma stored_ids_below_counter_witness :
  let s := state_after Example.calm in
  Z.of_nat (registrations Example.calm) <= UINT_MAX /\
  lastListenerID s = 4 /\
  Forall (fun kv => 0 <= unsigned_id kv < lastListenerID s) (listeners s).
Proof.
  cbv zeta.
  assert (Hn : Z.of_nat (registrations Example.calm) <= UINT_MAX)
    by discriminate.
  destruct (stored_ids_below_counter nat nat Example.Handler unit
              Example.handler Example.calm Hn) as [_ [Hc [Hb _]]].
  split; [exact Hn|]. split; [exact Hc|exact Hb].
Defined.

(** *** C3 *)

(** C3 fails on [addListener]: line 36 reads and writes [lastListenerID]
    before line 37 takes the mutex.  Whatever calls the threads make and
    however they are scheduled, every access to [listeners] is made by a
    thread that holds the mutex and every access to [lastListenerID] by one
    that does not.  So two threads that call [addListener] on a new emitter
    and both read the counter before either writes it are both handed the
    identifier 0 (one after the other they are handed 0 and 1), the counter
    ends at 1 after two registrations, and the accesses made without the
    mutex are the four to the counter. *)
Theorem concurrent_addListener_returns_one_id_twice :
  (forall EventType Target (H : Comparable EventType)
          (s : EventEmitter EventType Target) calls schedule,
     Forall (@entering EventType Target) calls ->
     Forall (fun a => holding_lock a = guarded_in_header (access a))
            (touches (run_schedule schedule (start s calls)))) /\
  let m := run_schedule Example.interleaving (start init Example.racing) in
  Forall (@entering nat Example.Handler) Example.racing /\
  frames m = [done (returned (listener_id 0));
              done (returned (listener_id 0))] /\
  stored_ids (object m) = [0; 0] /\
  lastListenerID (object m) = 1 /\
  map access (unguarded m)
  = [WriteCounter; WriteCounter; ReadCounter; ReadCounter] /\
  returned_ids
    [AddListener 7%nat (Some Example.Quiet);
     AddListener 7%nat (Some Example.Failing)] init = [0; 1].
Proof.
  split; [exact start_discipline|].
  cbv zeta. split; [repeat constructor|]. repeat split.
Qed.

(** *** Further properties, on the small program *)

Lemma emit_without_listeners_witness :
  with_key 5%nat (listeners (state_after Example.calm)) = [] /\
  invoked (Example.emit 5 42 (state_after Example.calm)) = [] /\
  finished (Example.emit 5 42 (state_after Example.calm)) = returned tt.
Proof.
  assert (Hnone : with_key 5%nat (listeners (state_after Example.calm)) = [])
    by reflexivity.
  destruct (emit_without_listeners nat nat Example.Handler unit
              Example.handler Example.calm 5%nat 42%nat tt Hnone)
    as [Hinv [Hfin _]].
  split; [exact Hnone|]. split; [exact Hinv|exact Hfin].
Defined.

Lemma addListener_then_removeListener_witness :
  Z.of_nat (registrations Example.calm) <= UINT_MAX /\
  listeners (run [AddListener 3%nat (Some Example.Quiet); RemoveListener 4]
                 (state_after Example.calm))
  = listeners (state_after Example.calm).
Proof.
  assert (Hn : Z.of_nat (registrations Example.calm) <= UINT_MAX)
    by discriminate.
  split; [exact Hn|].
  exact (proj1 (proj2 (proj2
           (addListener_then_removeListener nat Example.Handler
              Example.calm 3%nat Example.Quiet Hn)))).
Defined.

Lemma guarded_blocks_exclude_each_other_witness :
  let m := run_schedule [0; 0; 1; 1; 0; 1; 0; 1; 1]%nat
                        (start init Example.racing) in
  Forall (@entering nat Example.Handler) Example.racing /\
  nth_error (frames m) 0 = Some (addListener_39 7%nat (Some Example.Quiet) 0) /\
  nth_error (frames m) 1 = Some (addListener_37 7%nat (Some Example.Failing) 0) /\
  (forall t t' f f',
     nth_error (frames m) t = Some f ->
     nth_error (frames m) t' = Some f' ->
     in_guard_scope f = true -> in_guard_scope f' = true ->
     t = t').
Proof.
  cbv zeta.
  assert (Hcalls : Forall (@entering nat Example.Handler) Example.racing)
    by (repeat constructor).
  split; [exact Hcalls|]. split; [reflexivity|]. split; [reflexivity|].
  exact (guarded_blocks_exclude_each_other nat Example.Handler init
           Example.racing [0; 0; 1; 1; 0; 1; 0; 1; 1]%nat Hcalls).
Defined.
